(** * Verification of the relational-to-graph ETL pipeline

    Shallow embedding of [app/etl.py] and [app/main.py]: the batcher, the
    readiness gate, the temporal normaliser, the extractor, the graph loader
    and the liveness probes, followed by the theorems that settle the
    properties stated about them. *)

From Stdlib Require Import ZArith QArith Qcanon List Lia String Ascii Permutation.
From stdpp Require Import base option list strings gmap sets fin_maps.

(* stdpp's solvers clear hypotheses that may already be gone. *)
#[local] Set Warnings "-clear-no-such-hyp".

Local Open Scope string_scope.
Local Open Scope list_scope.
Local Open Scope Z_scope.

(** ** Configuration constants ([etl.py], lines 19-20) *)

Definition WAIT_TIMEOUT_SEC : Z := 120.
Definition BATCH_SIZE : Z := 1000.

(** ** Batcher ([chunk], [etl.py] lines 68-76)

    [chunk_loop size buf xs] is the state of the generator when [buf] has
    been accumulated and [xs] is what remains of the iterable.  The list it
    returns is the sequence of yielded buffers.  After a [yield] the name
    [buf] is rebound to a fresh list, so yielded buffers are never shared. *)

Fixpoint chunk_loop {A} (size : Z) (buf xs : list A) : list (list A) :=
  match xs with
  | [] => match buf with [] => [] | _ :: _ => [buf] end
  | x :: xs' =>
      let buf' := buf ++ [x] in
      if Z.of_nat (length buf') >=? size
      then buf' :: chunk_loop size [] xs'
      else chunk_loop size buf' xs'
  end.

Definition chunk {A} (iterable : list A) (size : Z) : list (list A) :=
  chunk_loop size [] iterable.

(** The integers [lo], [lo+1], ..., [lo+n-1]. *)
Definition range (lo : Z) (n : nat) : list Z :=
  map (fun i => lo + Z.of_nat i) (seq 0 n).

(** ** Readiness gate ([wait_for_postgres], [wait_for_neo4j],
    [etl.py] lines 26-50)

    Both functions are the same loop around a different probe.  The clock
    [time.time()] is explicit state, counted in ticks of which [hz] make one
    second; one run of the probe reports whether it raised and how many
    ticks it took.  [time.sleep(1)] advances the clock by [hz] ticks.  The
    probe of [wait_for_postgres] is [psycopg2.connect(PG_URL)] followed by
    [conn.close()]; the probe of [wait_for_neo4j] opens a driver and a
    session and consumes [RETURN 1]. *)

Record probe_run (E : Type) := ProbeRun {
  pr_error : option E;   (* [Some e]: the probe raised [e] *)
  pr_cost : nat          (* ticks spent inside the probe *)
}.
Arguments ProbeRun {E} _ _.
Arguments pr_error {E} _.
Arguments pr_cost {E} _.

Inductive wait_result (E : Type) :=
  | Ready (attempt : nat) (now : Z)             (* [return] *)
  | TimedOut (e : E) (attempt : nat) (now : Z). (* bare [raise] of [e] *)
Arguments Ready {E} _ _.
Arguments TimedOut {E} _ _ _.

(** [wait_loop] is the [while True] loop entered for the [k]-th time with the
    clock at [now]; [fuel] bounds the number of iterations of the model. *)
Fixpoint wait_loop {E} (hz : Z) (probe : nat -> probe_run E)
    (timeout start : Z) (fuel : nat) (k : nat) (now : Z)
    : option (wait_result E) :=
  match fuel with
  | O => None
  | S fuel' =>
      let r := probe k in
      let now1 := now + Z.of_nat (pr_cost r) in
      match pr_error r with
      | None => Some (Ready k now1)
      | Some e =>
          if now1 - start >? timeout * hz
          then Some (TimedOut e k now1)
          else wait_loop hz probe timeout start fuel' (S k) (now1 + 1 * hz)
      end
  end.

Definition await_ready {E} (hz : Z) (probe : nat -> probe_run E)
    (timeout : Z) (fuel : nat) (start : Z) : option (wait_result E) :=
  wait_loop hz probe timeout start fuel 0 start.

Definition wait_for_postgres {E} (hz : Z) (pg_probe : nat -> probe_run E)
    (timeout : Z) := await_ready hz pg_probe timeout.

Definition wait_for_neo4j {E} (hz : Z) (neo4j_probe : nat -> probe_run E)
    (timeout : Z) := await_ready hz neo4j_probe timeout.

(** Ticks spent in the probe runs number [0] to [k] inclusive. *)
Fixpoint probe_ticks {E} (probe : nat -> probe_run E) (k : nat) : Z :=
  match k with
  | O => Z.of_nat (pr_cost (probe O))
  | S k' => probe_ticks probe k' + Z.of_nat (pr_cost (probe k))
  end.

(** What a caller observes of a gate whose probe never succeeds: from some
    fuel on, the run ends by raising the error [err k] of its last probe run
    [k], at a clock [t] that is past the timeout by at most one sleep and
    one probe run ([D] bounds the ticks of a probe run), having slept
    exactly one second after each of the [k] earlier runs. *)
Definition raises_at_timeout {E} (hz : Z)
    (gate : nat -> Z -> option (wait_result E))
    (probe : nat -> probe_run E) (err : nat -> E)
    (timeout start D : Z) : Prop :=
  exists n k t,
    (forall fuel, (n <= fuel)%nat -> gate fuel start = Some (TimedOut (err k) k t)) /\
    timeout * hz < t - start /\
    t - start <= timeout * hz + 1 * hz + D /\
    t - start = probe_ticks probe k + Z.of_nat k * (1 * hz).

(** ** Exceptions

    A call either returns or raises.  [except Exception] handles the
    [Exception] branch of Python's hierarchy only. *)

Inductive exn :=
  | Exception (msg : string)       (* driver and query errors *)
  | BaseException (msg : string).  (* interrupts, interpreter exit *)

Inductive exc (A : Type) :=
  | Ret (a : A)
  | Raise (e : exn).
Arguments Ret {A} _.
Arguments Raise {A} _.

Definition exc_bind {A B} (m : exc A) (k : A -> exc B) : exc B :=
  match m with Ret a => k a | Raise e => Raise e end.

Notation "'do' x <- m ; k" := (exc_bind m (fun x => k))
  (at level 10, x name, m at level 100, k at level 200).
Notation "m ;;; k" := (exc_bind m (fun _ => k))
  (at level 100, k at level 200, right associativity).

(** [try: body  except Exception: handler]. *)
Definition try_except {A} (body : exc A) (handler : exc A) : exc A :=
  match body with
  | Raise (Exception _) => handler
  | other => other
  end.

(** A library call that returns nothing: it succeeds, or raises the
    library's error (a subclass of [Exception]) with the given message. *)
Definition call (outcome : option string) : exc unit :=
  match outcome with
  | None => Ret tt
  | Some msg => Raise (Exception msg)
  end.

(** ** Liveness probes ([main.py], lines 13-35)

    What the two stores answer to each step of one round trip. *)

Record pg_server := PgServer {
  pg_connect : option string;   (* [psycopg2.connect(PG_URL)] *)
  pg_cursor : option string;    (* [conn.cursor()] *)
  pg_execute : option string;   (* [cur.execute("SELECT 1;")] *)
  pg_fetchone : option string;  (* [cur.fetchone()] *)
  pg_cursor_exit : option string; (* leaving the [with] block *)
  pg_close : option string      (* [conn.close()] *)
}.

Record neo4j_server := Neo4jServer {
  neo_driver : option string;   (* [GraphDatabase.driver(...)] *)
  neo_session : option string;  (* [d.session()] *)
  neo_run : option string;      (* [s.run("RETURN 1")] *)
  neo_consume : option string;  (* [.consume()] *)
  neo_session_exit : option string;
  neo_driver_exit : option string
}.

Definition pg_ok (pg : pg_server) : exc bool :=
  try_except
    (call (pg_connect pg) ;;;
     call (pg_cursor pg) ;;;
     call (pg_execute pg) ;;;
     call (pg_fetchone pg) ;;;
     call (pg_cursor_exit pg) ;;;
     call (pg_close pg) ;;;
     Ret true)
    (Ret false).

Definition neo4j_ok (neo : neo4j_server) : exc bool :=
  try_except
    (call (neo_driver neo) ;;;
     call (neo_session neo) ;;;
     call (neo_run neo) ;;;
     call (neo_consume neo) ;;;
     call (neo_session_exit neo) ;;;
     call (neo_driver_exit neo) ;;;
     Ret true)
    (Ret false).

(** [pg_ok() and neo4j_ok()]: the right operand runs only when the left one
    is true.  The handler returns the JSON object [{"ok": ...}]. *)
Definition health (pg : pg_server) (neo : neo4j_server)
    : exc (gmap string bool) :=
  do a <- pg_ok pg;
  do b <- (if a then neo4j_ok neo else Ret false);
  Ret {[ "ok" := b ]}.

(** Every step of the round trip answered without error. *)
Definition pg_round_trip (pg : pg_server) : bool :=
  bool_decide (pg_connect pg = None /\ pg_cursor pg = None /\
               pg_execute pg = None /\ pg_fetchone pg = None /\
               pg_cursor_exit pg = None /\ pg_close pg = None).

Definition neo4j_round_trip (neo : neo4j_server) : bool :=
  bool_decide (neo_driver neo = None /\ neo_session neo = None /\
               neo_run neo = None /\ neo_consume neo = None /\
               neo_session_exit neo = None /\ neo_driver_exit neo = None).

(** ** Cell values and tables

    A cell of a [DataFrame], a value of a row dictionary, a Cypher parameter
    and a stored graph property are all values of this one type.  The
    missing cell is [VNull] (Python's [None], Cypher's [null]); [VDate] and
    [VDateTime] are Cypher's typed temporal values, named by their ISO
    text. *)

Inductive value :=
  | VNull
  | VInt (z : Z)
  | VFloat (q : Qc)
  | VStr (s : string)
  | VDate (iso : string)
  | VDateTime (iso : string).

#[global] Instance value_eq_dec : EqDecision value.
Proof. solve_decision. Defined.

Definition value_encode (v : value) : unit + Z + Qc + string + string + string :=
  match v with
  | VNull => inl (inl (inl (inl (inl tt))))
  | VInt z => inl (inl (inl (inl (inr z))))
  | VFloat q => inl (inl (inl (inr q)))
  | VStr s => inl (inl (inr s))
  | VDate s => inl (inr s)
  | VDateTime s => inr s
  end.

Definition value_decode (x : unit + Z + Qc + string + string + string) : value :=
  match x with
  | inl (inl (inl (inl (inl _)))) => VNull
  | inl (inl (inl (inl (inr z)))) => VInt z
  | inl (inl (inl (inr q))) => VFloat q
  | inl (inl (inr s)) => VStr s
  | inl (inr s) => VDate s
  | inr s => VDateTime s
  end.

#[global] Instance value_countable : Countable value.
Proof.
  apply (inj_countable' value_encode value_decode). by intros [].
Defined.

(** A [pandas.Series] is the list of its cells.  A [DataFrame] has a number
    of rows and named columns. *)
Record dataframe := DataFrame {
  df_rows : nat;
  df_cols : gmap string (list value)
}.

(** [df[c] = series]. *)
Definition df_set_column (c : string) (series : list value) (df : dataframe)
    : dataframe :=
  {| df_rows := df_rows df; df_cols := <[c := series]> (df_cols df) |}.

(** [df.to_dict("records")]: one dictionary per row, keyed by column name. *)
Definition to_dict_records (df : dataframe) : list (gmap string value) :=
  map (fun i => (fun col : list value => default VNull (col !! i)) <$> df_cols df)
      (seq 0 (df_rows df)).

(** ** Normaliser ([etl.py], lines 95-127) *)

(** The calendar fields of a parsed [Timestamp] that [strftime] prints. *)
Record timestamp := Timestamp {
  ts_year : nat; ts_month : nat; ts_day : nat;
  ts_hour : nat; ts_minute : nat; ts_second : nat
}.

(** The library functions the normaliser calls on cells: the text of a
    float, and [pd.to_datetime(series, utc=..., errors="coerce")].  The
    parser reads one cell in the context of the whole series (the format may
    be inferred from other cells); [None] is [NaT]. *)
Class Pandas := {
  float_repr : Qc -> string;
  to_datetime : bool -> list string -> string -> option timestamp
}.

Definition digit_char (d : nat) : ascii := ascii_of_nat (48 + d).

Fixpoint digits_go (fuel n : nat) (acc : string) : string :=
  match fuel with
  | O => acc
  | S fuel' =>
      let acc' := String (digit_char (n mod 10)) acc in
      if (n / 10 =? 0)%nat then acc' else digits_go fuel' (n / 10) acc'
  end.

Definition nat_to_string (n : nat) : string := digits_go (S n) n "".

Fixpoint zeros (k : nat) : string :=
  match k with O => "" | S k' => String "0" (zeros k') end.

(** [%0wd]. *)
Definition pad (w n : nat) : string :=
  let s := nat_to_string n in
  (zeros (w - String.length s) ++ s)%string.

(** [strftime("%Y-%m-%d")] and [strftime("%Y-%m-%dT%H:%M:%SZ")]. *)
Definition strftime_date (t : timestamp) : string :=
  (pad 4 (ts_year t) ++ "-" ++ pad 2 (ts_month t) ++ "-" ++ pad 2 (ts_day t))%string.

Definition strftime_datetime (t : timestamp) : string :=
  (strftime_date t ++ "T" ++ pad 2 (ts_hour t) ++ ":" ++ pad 2 (ts_minute t)
     ++ ":" ++ pad 2 (ts_second t) ++ "Z")%string.

(** [str.strip()] on byte strings: Python's ASCII white space. *)
Definition is_space (a : ascii) : bool :=
  let n := nat_of_ascii a in
  ((n =? 32) || ((9 <=? n) && (n <=? 13)) || ((28 <=? n) && (n <=? 31)))%nat.

Fixpoint lstrip (s : string) : string :=
  match s with
  | String a s' => if is_space a then lstrip s' else s
  | EmptyString => EmptyString
  end.

Fixpoint rstrip (s : string) : string :=
  match s with
  | String a s' =>
      match rstrip s' with
      | EmptyString => if is_space a then EmptyString else String a EmptyString
      | r => String a r
      end
  | EmptyString => EmptyString
  end.

Definition strip (s : string) : string := lstrip (rstrip s).

Section Normalizer.
Context `{Pandas}.

(** [series.astype(str)] on one cell. *)
Definition py_str (v : value) : string :=
  match v with
  | VNull => "None"
  | VInt z => ((if (z <? 0)%Z then "-" else "") ++ nat_to_string (Z.abs_nat z))%string
  | VFloat q => float_repr q
  | VStr s => s
  | VDate s => s
  | VDateTime s => s
  end.

(** [s.where(~s.isna(), None)] on one cell of the formatted series. *)
Definition where_notna (o : option string) : value :=
  match o with Some s => VStr s | None => VNull end.

Definition normalize_series (utc : bool) (fmt : timestamp -> string)
    (series : list value) : list value :=
  let texts := map (fun v => strip (py_str v)) series in
  map (fun text => where_notna (fmt <$> to_datetime utc texts text)) texts.

Definition _to_date_str (series : list value) : list value :=
  normalize_series false strftime_date series.

Definition _to_datetime_str (series : list value) : list value :=
  normalize_series true strftime_datetime series.

(** The store of [DataFrame] objects: [normalize_tables] receives a
    dictionary of references, copies every frame, and assigns columns of the
    copies in place. *)
Definition rewrite_column (c : string) (f : list value -> list value)
    (df : dataframe) : dataframe :=
  match df_cols df !! c with
  | Some series => df_set_column c (f series) df
  | None => df
  end.

(** [{k: v.copy() for k, v in tables.items()}]. *)
Definition copy_tables (tables : gmap string nat) (h : gmap nat dataframe)
    : gmap string nat * gmap nat dataframe :=
  map_fold
    (fun k r (acc : gmap string nat * gmap nat dataframe) =>
       match acc.2 !! r with
       | Some df =>
           let r' := fresh (dom acc.2) in
           (<[k := r']> acc.1, <[r' := df]> acc.2)
       | None => acc
       end)
    (∅, h) tables.

(** [if name in t and c in t[name].columns: t[name][c] = f(t[name][c])]. *)
Definition normalize_in_place (name c : string) (f : list value -> list value)
    (t : gmap string nat) (h : gmap nat dataframe) : gmap nat dataframe :=
  match t !! name with
  | Some r => alter (rewrite_column c f) r h
  | None => h
  end.

Definition normalize_tables (tables : gmap string nat) (h : gmap nat dataframe)
    : gmap string nat * gmap nat dataframe :=
  let '(t, h0) := copy_tables tables h in
  let h1 := normalize_in_place "customers" "join_date" _to_date_str t h0 in
  let h2 := normalize_in_place "orders" "ts" _to_datetime_str t h1 in
  let h3 := normalize_in_place "events" "ts" _to_datetime_str t h2 in
  (t, h3).

(** What [normalize_tables] does to the frame stored under [name]. *)
Definition normalize_frame (name : string) (df : dataframe) : dataframe :=
  if decide (name = "customers") then rewrite_column "join_date" _to_date_str df
  else if decide (name = "orders") then rewrite_column "ts" _to_datetime_str df
  else if decide (name = "events") then rewrite_column "ts" _to_datetime_str df
  else df.

End Normalizer.

(** A sample parser: the two ISO layouts [YYYY-MM-DD] and
    [YYYY-MM-DD HH:MM:SS] (or with [T]), every other text being [NaT].  It
    stands for the library's parser on those inputs when an instance is
    needed to run the model. *)
Definition digit_val (a : ascii) : option nat :=
  let n := nat_of_ascii a in
  if ((48 <=? n) && (n <=? 57))%nat then Some (n - 48)%nat else None.

Fixpoint parse_digits (s : string) (acc : nat) : option nat :=
  match s with
  | EmptyString => Some acc
  | String a s' =>
      match digit_val a with
      | Some d => parse_digits s' (10 * acc + d)%nat
      | None => None
      end
  end.

Definition field (s : string) (start len : nat) : option nat :=
  parse_digits (substring start len s) 0.

Definition char_at (s : string) (i : nat) (a : ascii) : bool :=
  bool_decide (String.get i s = Some a).

Definition iso_date_fields (s : string) : option (nat * nat * nat) :=
  if char_at s 4 "-" && char_at s 7 "-" then
    match field s 0 4, field s 5 2, field s 8 2 with
    | Some y, Some m, Some d =>
        if ((1 <=? m) && (m <=? 12) && (1 <=? d) && (d <=? 31))%nat
        then Some (y, m, d) else None
    | _, _, _ => None
    end
  else None.

Definition iso_time_fields (s : string) : option (nat * nat * nat) :=
  if (char_at s 10 " " || char_at s 10 "T") && char_at s 13 ":" && char_at s 16 ":" then
    match field s 11 2, field s 14 2, field s 17 2 with
    | Some h, Some m, Some sec =>
        if ((h <=? 23) && (m <=? 59) && (sec <=? 59))%nat
        then Some (h, m, sec) else None
    | _, _, _ => None
    end
  else None.

Definition iso_parse (s : string) : option timestamp :=
  if (String.length s =? 10)%nat then
    match iso_date_fields s with
    | Some (y, m, d) => Some (Timestamp y m d 0 0 0)
    | None => None
    end
  else if (String.length s =? 19)%nat then
    match iso_date_fields s, iso_time_fields s with
    | Some (y, m, d), Some (h, mi, sec) => Some (Timestamp y m d h mi sec)
    | _, _ => None
    end
  else None.

Definition iso_pandas : Pandas :=
  {| float_repr := fun _ => "nan"; to_datetime := fun _ _ s => iso_parse s |}.

(** The three temporal columns. *)
Definition temporal_column (name c : string) : Prop :=
  (name = "customers" /\ c = "join_date") \/
  (name = "orders" /\ c = "ts") \/
  (name = "events" /\ c = "ts").

(** A two-row [customers] frame used to run the model. *)
Definition sample_customers : dataframe :=
  {| df_rows := 2;
     df_cols := {[ "id" := [VInt 1; VInt 2];
                   "name" := [VStr "Ada"; VStr "Bob"];
                   "join_date" := [VStr " 2023-03-05"; VStr "not-a-date"] ]} |}.

(** ** Extractor ([extract_postgres], [etl.py] lines 82-89)

    The engine made by [create_engine] connects lazily and keeps its
    connections in a pool: a read checks a connection out (opening one when
    the pool is empty), runs the query and hands the connection back to the
    pool, whether the query succeeded or raised; [engine.dispose()] closes
    the pooled connections. *)

Record engine_state := EngineState {
  engines : nat;          (* engines created so far *)
  open_connections : nat  (* connections to the source store now open *)
}.

(** What the source store answers: to a connection attempt made for the
    read of a relation, and to the query [SELECT * FROM "tbl";]. *)
Record source_store := SourceStore {
  src_connect : string -> option string;
  src_query : string -> dataframe + string
}.

Definition create_engine (st : engine_state) : engine_state :=
  {| engines := S (engines st); open_connections := open_connections st |}.

Definition dispose (st : engine_state) : engine_state :=
  {| engines := engines st; open_connections := 0 |}.

Definition read_sql_query (src : source_store) (tbl : string)
    (st : engine_state) : engine_state * exc dataframe :=
  let checkout :=
    match open_connections st with
    | O =>
        match src_connect src tbl with
        | Some msg => inr msg
        | None => inl {| engines := engines st; open_connections := 1 |}
        end
    | S _ => inl st
    end in
  match checkout with
  | inr msg => (st, Raise (Exception msg))
  | inl st' =>
      match src_query src tbl with
      | inl df => (st', Ret df)
      | inr msg => (st', Raise (Exception msg))
      end
  end.

Definition RELATIONS : list string :=
  ["customers"; "categories"; "products"; "orders"; "order_items"; "events"].

(** The [for tbl in [...]] loop, with [tables] filled so far. *)
Fixpoint read_relations (src : source_store) (names : list string)
    (tables : gmap string dataframe) (st : engine_state)
    : engine_state * exc (gmap string dataframe) :=
  match names with
  | [] => (st, Ret tables)
  | tbl :: rest =>
      match read_sql_query src tbl st with
      | (st', Ret df) => read_relations src rest (<[tbl := df]> tables) st'
      | (st', Raise e) => (st', Raise e)
      end
  end.

Definition extract_postgres (src : source_store) (st : engine_state)
    : engine_state * exc (gmap string dataframe) :=
  let st1 := create_engine st in
  match read_relations src RELATIONS ∅ st1 with
  | (st2, Ret tables) => (dispose st2, Ret tables)
  | (st2, Raise e) => (st2, Raise e)
  end.

(** A source store that has lost its [orders] relation. *)
Definition store_without_orders : source_store :=
  {| src_connect := fun _ => None;
     src_query := fun tbl =>
       if decide (tbl = "orders") then inr "relation orders does not exist"
       else inl {| df_rows := 0; df_cols := ∅ |} |}.

(** ** Graph store

    The store holds nodes and relationships with properties.  Under the
    uniqueness constraints set up before the load, a node is identified by
    its label and the value of its [id] property, and [MERGE] keeps one
    relationship of a kind between two nodes: a node is a key
    [(label, id)], a relationship a key [(kind, source, target)], and a
    property a cell of a finite map.  A property set to [null] is removed. *)

Abbreviation node_key := (string * value)%type.
Abbreviation rel_key := (string * (string * value) * (string * value))%type.

Record graph := Graph {
  nodes : gset node_key;
  node_props : gmap (node_key * string) value;
  rels : gset rel_key;
  rel_props : gmap (rel_key * string) value
}.

Definition empty_graph : graph := Graph ∅ ∅ ∅ ∅.

Definition cell (v : value) : option value :=
  match v with VNull => None | _ => Some v end.

Definition set_cell `{Countable K} (k : K) (v : value) (m : gmap K value)
    : gmap K value :=
  partial_alter (fun _ => cell v) k m.

(** The elementary writes of the store. *)
Inductive write :=
  | WNode (n : node_key)
  | WNodeProp (n : node_key) (p : string) (v : value)
  | WRel (r : rel_key)
  | WRelProp (r : rel_key) (p : string) (v : value).

Definition apply_write (g : graph) (w : write) : graph :=
  match w with
  | WNode n =>
      Graph ({[ n ]} ∪ nodes g) (node_props g) (rels g) (rel_props g)
  | WNodeProp n p v =>
      Graph (nodes g) (set_cell (n, p) v (node_props g)) (rels g) (rel_props g)
  | WRel r =>
      Graph (nodes g) (node_props g) ({[ r ]} ∪ rels g) (rel_props g)
  | WRelProp r p v =>
      Graph (nodes g) (node_props g) (rels g) (set_cell (r, p) v (rel_props g))
  end.

Definition apply_writes (ws : list write) (g : graph) : graph :=
  foldl apply_write g ws.

(** [MATCH (x:L {id: v})] finds the node of that key; a [null] value
    matches nothing. *)
Definition matched (N : gset node_key) (n : node_key) : bool :=
  bool_decide (n.2 <> VNull) && bool_decide (n ∈ N).

(** What one row of an [UNWIND $rows AS row] query does:
    - [SFail]: the row makes the query raise ([MERGE] on a [null] key, or a
      temporal function applied to text it cannot read);
    - [SUpsert n sets]: [MERGE (x:L {id: k}) SET x.p = v, ...];
    - [SLink needs r sets]: [MATCH] the nodes [needs], then
      [MERGE (a)-[x:KIND]->(b) SET x.p = v, ...]; with [sets = None] the
      [SET] expression raises, which happens only once the nodes matched. *)
Inductive stmt :=
  | SFail
  | SUpsert (n : node_key) (sets : list (string * value))
  | SLink (needs : list node_key) (r : rel_key)
          (sets : option (list (string * value))).

Definition upsert_writes (n : node_key) (sets : list (string * value))
    : list write :=
  WNode n :: map (fun pv => WNodeProp n pv.1 pv.2) sets.

Definition link_writes (r : rel_key) (sets : list (string * value))
    : list write :=
  WRel r :: map (fun pv => WRelProp r pv.1 pv.2) sets.

Definition exec_stmt (s : stmt) (g : graph) : option graph :=
  match s with
  | SFail => None
  | SUpsert n sets => Some (apply_writes (upsert_writes n sets) g)
  | SLink needs r sets =>
      if forallb (matched (nodes g)) needs
      then match sets with
           | Some sets => Some (apply_writes (link_writes r sets) g)
           | None => None
           end
      else Some g
  end.

Fixpoint exec_stmts (l : list stmt) (g : graph) : option graph :=
  match l with
  | [] => Some g
  | s :: l' =>
      match exec_stmt s g with
      | Some g' => exec_stmts l' g'
      | None => None
      end
  end.

(** ** Graph loader ([load_graph], [etl.py] lines 133-220) *)

(** Cypher's scalar functions used by the queries.  [toFloat] and
    [toInteger] answer [null] for text they cannot read; [date] and
    [datetime] raise ([None]). *)
Class Cypher := {
  toFloat : value -> value;
  toInteger : value -> value;
  cy_date : value -> option value;
  cy_datetime : value -> option value
}.

(** [row.k] in Cypher and [e.get(k)] in Python: [null] for a missing key. *)
Definition row_get (row : gmap string value) (k : string) : value :=
  default VNull (row !! k).

(** [CASE WHEN v IS NULL OR v = "" THEN NULL ELSE f(v) END]. *)
Definition guarded (f : value -> option value) (v : value) : option value :=
  if decide (v = VNull \/ v = VStr "") then Some VNull else f v.

Section Loader.
Context `{Cypher}.

(** [MERGE (g:Category {id: row.id}) SET g.name = row.name] *)
Definition category_row (row : gmap string value) : list stmt :=
  match row_get row "id" with
  | VNull => [SFail]
  | id => [SUpsert ("Category", id) [("name", row_get row "name")]]
  end.

(** [MERGE (p:Product {id: row.id})
     SET p.name = row.name, p.price = toFloat(row.price)
     WITH row, p MATCH (g:Category {id: row.category_id})
     MERGE (p)-[:IN_CATEGORY]->(g)] *)
Definition product_row (row : gmap string value) : list stmt :=
  match row_get row "id" with
  | VNull => [SFail]
  | id =>
      [SUpsert ("Product", id)
         [("name", row_get row "name"); ("price", toFloat (row_get row "price"))];
       SLink [("Category", row_get row "category_id")]
         ("IN_CATEGORY", ("Product", id), ("Category", row_get row "category_id"))
         (Some [])]
  end.

(** [MERGE (c:Customer {id: row.id})
     SET c.name = row.name, c.join_date = CASE ... date(row.join_date) END] *)
Definition customer_row (row : gmap string value) : list stmt :=
  match row_get row "id", guarded cy_date (row_get row "join_date") with
  | VNull, _ => [SFail]
  | _, None => [SFail]
  | id, Some d =>
      [SUpsert ("Customer", id) [("name", row_get row "name"); ("join_date", d)]]
  end.

(** [MERGE (o:Order {id: row.id}) SET o.ts = CASE ... datetime(row.ts) END
     WITH row, o MATCH (c:Customer {id: row.customer_id})
     MERGE (c)-[:PLACED]->(o)] *)
Definition order_row (row : gmap string value) : list stmt :=
  match row_get row "id", guarded cy_datetime (row_get row "ts") with
  | VNull, _ => [SFail]
  | _, None => [SFail]
  | id, Some t =>
      [SUpsert ("Order", id) [("ts", t)];
       SLink [("Customer", row_get row "customer_id")]
         ("PLACED", ("Customer", row_get row "customer_id"), ("Order", id))
         (Some [])]
  end.

(** [MATCH (o:Order {id: row.order_id}) MATCH (p:Product {id: row.product_id})
     MERGE (o)-[r:CONTAINS]->(p) SET r.quantity = toInteger(row.quantity)] *)
Definition order_item_row (row : gmap string value) : list stmt :=
  [SLink [("Order", row_get row "order_id"); ("Product", row_get row "product_id")]
     ("CONTAINS", ("Order", row_get row "order_id"),
                  ("Product", row_get row "product_id"))
     (Some [("quantity", toInteger (row_get row "quantity"))])].

(** [MATCH (c:Customer {id: row.customer_id})
     MATCH (p:Product {id: row.product_id})
     MERGE (c)-[r:REL_TYPE]->(p) SET r.ts = CASE ... datetime(row.ts) END] *)
Definition event_row (rel_type : string) (row : gmap string value) : list stmt :=
  [SLink [("Customer", row_get row "customer_id");
          ("Product", row_get row "product_id")]
     (rel_type, ("Customer", row_get row "customer_id"),
                ("Product", row_get row "product_id"))
     (t ← guarded cy_datetime (row_get row "ts"); Some [("ts", t)])].

(** [session.run(query, {"rows": batch}).consume()]: the rows of the batch
    are unwound in order. *)
Definition run_query (q : gmap string value -> list stmt)
    (batch : list (gmap string value)) (g : graph) : option graph :=
  exec_stmts (flat_map q batch) g.

(** [for batch in chunk(rows, BATCH_SIZE): session.run(...)]. *)
Fixpoint run_batches (q : gmap string value -> list stmt)
    (batches : list (list (gmap string value))) (g : graph) : option graph :=
  match batches with
  | [] => Some g
  | batch :: rest =>
      match run_query q batch g with
      | Some g' => run_batches q rest g'
      | None => None
      end
  end.

Definition load_step (q : gmap string value -> list stmt)
    (rows : list (gmap string value)) (g : graph) : option graph :=
  run_batches q (chunk rows BATCH_SIZE) g.

(** Modelled from the spec: [queries.cypher], the file of constraint and
    index statements run by [run_cypher_file], is not part of the sources;
    its statements are schema statements, which leave nodes, relationships
    and properties as they are. *)
Definition run_cypher_file (g : graph) : option graph := Some g.

(** [tables[name].to_dict("records")]; a missing table raises [KeyError]. *)
Definition records (tables : gmap string dataframe) (name : string)
    : option (list (gmap string value)) :=
  to_dict_records <$> tables !! name.

(** [by_type(t)]. *)
Definition by_type (events : list (gmap string value)) (t : string)
    : list (gmap string value) :=
  filter (fun e => row_get e "event_type" = VStr t) events.

(** Step 7: the three passes over the events. *)
Definition load_events (events : list (gmap string value)) (g : graph)
    : option graph :=
  g ← load_step (event_row "VIEWED") (by_type events "view") g;
  g ← load_step (event_row "CLICKED") (by_type events "click") g;
  load_step (event_row "ADDED_TO_CART") (by_type events "add_to_cart") g.

Definition load_graph (tables : gmap string dataframe) (g : graph)
    : option graph :=
  g ← run_cypher_file g;
  cats ← records tables "categories";
  g ← load_step category_row cats g;
  prods ← records tables "products";
  g ← load_step product_row prods g;
  custs ← records tables "customers";
  g ← load_step customer_row custs g;
  orders ← records tables "orders";
  g ← load_step order_row orders g;
  items ← records tables "order_items";
  g ← load_step order_item_row items g;
  events ← records tables "events";
  load_events events g.

End Loader.

(** A sample instance of the scalar functions, to run the model: integers
    and floats convert, temporal text is wrapped as it stands. *)
Definition sample_cypher : Cypher :=
  {| toFloat := fun v =>
       match v with VInt z => VFloat (Q2Qc (inject_Z z)) | VFloat q => VFloat q
                  | _ => VNull end;
     toInteger := fun v => match v with VInt z => VInt z | _ => VNull end;
     cy_date := fun v => match v with VStr s => Some (VDate s) | _ => None end;
     cy_datetime := fun v =>
       match v with VStr s => Some (VDateTime s) | _ => None end |}.

(** The place a write assigns. *)
Inductive location :=
  | LNode (n : node_key)
  | LNodeProp (n : node_key) (p : string)
  | LRel (r : rel_key)
  | LRelProp (r : rel_key) (p : string).

#[global] Instance location_eq_dec : EqDecision location.
Proof. solve_decision. Defined.

Definition loc (w : write) : location :=
  match w with
  | WNode n => LNode n
  | WNodeProp n p _ => LNodeProp n p
  | WRel r => LRel r
  | WRelProp r p _ => LRelProp r p
  end.

(** Nodes a list of writes creates. *)
Definition created (ws : list write) : gset node_key :=
  list_to_set (omap (fun w => match w with WNode n => Some n | _ => None end) ws).

(** Nodes a statement creates, and nodes it has to find. *)
Definition stmt_upserts (s : stmt) : gset node_key :=
  match s with SUpsert n _ => {[ n ]} | _ => ∅ end.

Definition upserts (l : list stmt) : gset node_key :=
  ⋃ (stmt_upserts <$> l).

Definition stmt_needs (s : stmt) : list node_key :=
  match s with SLink needs _ _ => needs | _ => [] end.

(** Creators before referencers: no statement looks for a node that the
    same or a later statement creates. *)
Fixpoint ordered (l : list stmt) : Prop :=
  match l with
  | [] => True
  | s :: l' => (forall n, n ∈ stmt_needs s -> n ∉ upserts l') /\ ordered l'
  end.

(** The writes a list of statements performs when it starts from a store
    whose nodes are [N]; [None] when a statement raises. *)
Fixpoint trace (l : list stmt) (N : gset node_key) : option (list write) :=
  match l with
  | [] => Some []
  | SFail :: _ => None
  | SUpsert n sets :: l' =>
      match trace l' (N ∪ {[ n ]}) with
      | Some ws => Some (upsert_writes n sets ++ ws)
      | None => None
      end
  | SLink needs r sets :: l' =>
      if forallb (matched N) needs
      then match sets, trace l' N with
           | Some sets, Some ws => Some (link_writes r sets ++ ws)
           | _, _ => None
           end
      else trace l' N
  end.

Section LoaderPlan.
Context `{Cypher}.

(** The statements of step 7, in the order the three passes run them. *)
Definition events_plan (events : list (gmap string value)) : list stmt :=
  flat_map (event_row "VIEWED") (by_type events "view") ++
  flat_map (event_row "CLICKED") (by_type events "click") ++
  flat_map (event_row "ADDED_TO_CART") (by_type events "add_to_cart").

(** All the statements of a load, in the order they run; [None] when a
    table is missing. *)
Definition load_plan (tables : gmap string dataframe) : option (list stmt) :=
  cats ← records tables "categories";
  prods ← records tables "products";
  custs ← records tables "customers";
  orders ← records tables "orders";
  items ← records tables "order_items";
  events ← records tables "events";
  Some (flat_map category_row cats ++
        flat_map product_row prods ++
        flat_map customer_row custs ++
        flat_map order_row orders ++
        flat_map order_item_row items ++
        events_plan events).

End LoaderPlan.

(** Labels of the nodes statements create and look for. *)
Definition upserts_in (U : list string) (l : list stmt) : Prop :=
  Forall (fun s => forall n, n ∈ stmt_upserts s -> n.1 ∈ U) l.

Definition needs_in (Nd : list string) (l : list stmt) : Prop :=
  Forall (fun s => forall n, n ∈ stmt_needs s -> n.1 ∈ Nd) l.

(** A small snapshot used to run the loader: it has a product whose
    category is absent, an unrecognised event type, and two [view] events
    of the same customer for the same product. *)
Definition frame (n : nat) (cols : list (string * list value)) : dataframe :=
  {| df_rows := n; df_cols := list_to_map cols |}.

Definition sample_tables : gmap string dataframe :=
  list_to_map
    [("categories", frame 1 [("id", [VInt 1]); ("name", [VStr "Books"])]);
     ("products",
      frame 2 [("id", [VInt 10; VInt 11]);
               ("name", [VStr "Novel"; VStr "Pen"]);
               ("category_id", [VInt 1; VInt 7]);
               ("price", [VInt 12; VInt 2])]);
     ("customers",
      frame 1 [("id", [VInt 100]); ("name", [VStr "Ada"]);
               ("join_date", [VStr "2023-03-05"])]);
     ("orders",
      frame 1 [("id", [VInt 500]); ("customer_id", [VInt 100]);
               ("ts", [VStr "2023-03-05T14:30:00Z"])]);
     ("order_items",
      frame 1 [("order_id", [VInt 500]); ("product_id", [VInt 10]);
               ("quantity", [VInt 2])]);
     ("events",
      frame 3 [("customer_id", [VInt 100; VInt 100; VInt 100]);
               ("product_id", [VInt 10; VInt 10; VInt 10]);
               ("event_type", [VStr "view"; VStr "purchase"; VStr "view"]);
               ("ts", [VStr "2023-03-06T10:00:00Z"; VStr "2023-03-07T10:00:00Z";
                       VNull])])].

(** A snapshot with no category and one product that names category 7, and
    a store in which a [Category] node 7 is left from an earlier load. *)
Definition pen_row : gmap string value :=
  list_to_map [("id", VInt 11); ("name", VStr "Pen");
               ("category_id", VInt 7); ("price", VInt 2)].

Definition stale_tables : gmap string dataframe :=
  list_to_map
    [("categories", frame 0 [("id", []); ("name", [])]);
     ("products",
      frame 1 [("id", [VInt 11]); ("name", [VStr "Pen"]);
               ("category_id", [VInt 7]); ("price", [VInt 2])]);
     ("customers", frame 0 []);
     ("orders", frame 0 []);
     ("order_items", frame 0 []);
     ("events", frame 0 [])].

Definition stale_graph : graph :=
  Graph {[ ("Category", VInt 7) ]} ∅ ∅ ∅.


(** [g] with the relationship [r] merged and its [ts] set to [t]. *)
Definition with_edge (g : graph) (r : rel_key) (t : value) : graph :=
  Graph (nodes g) (node_props g) ({[ r ]} ∪ rels g)
        (set_cell (r, "ts") t (rel_props g)).

(** A [view] event of a stored customer for a stored product, and a
    purchase event. *)
Definition view_event : gmap string value :=
  list_to_map [("customer_id", VInt 100); ("product_id", VInt 10);
               ("event_type", VStr "view"); ("ts", VStr "2023-03-06T10:00:00Z")].

Definition purchase_event : gmap string value :=
  list_to_map [("customer_id", VInt 100); ("product_id", VInt 10);
               ("event_type", VStr "purchase");
               ("ts", VStr "2023-03-07T10:00:00Z")].

Definition shop_graph : graph :=
  Graph {[ ("Customer", VInt 100); ("Product", VInt 10) ]} ∅ ∅ ∅.

(** Running statements on the outcome of earlier ones: an error stays an
    error. *)
Definition run (l : list stmt) (x : option graph) : option graph :=
  foldl (fun x s => x ≫= exec_stmt s) x l.

(** Two statements that write different places, neither creating a node the
    other looks for. *)
Definition indep (s1 s2 : stmt) : Prop :=
  match s1, s2 with
  | SFail, _ | _, SFail => True
  | SUpsert n1 _, SUpsert n2 _ => n1 <> n2
  | SUpsert n1 _, SLink needs2 _ _ => n1 ∉ needs2
  | SLink needs1 _ _, SUpsert n2 _ => n2 ∉ needs1
  | SLink _ r1 _, SLink _ r2 _ => r1 <> r2
  end.

Definition indep_lists (l1 l2 : list stmt) : Prop :=
  forall s1 s2, s1 ∈ l1 -> s2 ∈ l2 -> indep s1 s2.

(** The key a row is upserted under, per relation. *)
Definition upsert_key (name : string) (row : gmap string value) : list value :=
  if decide (name = "order_items")
  then [row_get row "order_id"; row_get row "product_id"]
  else if decide (name = "events")
  then [row_get row "customer_id"; row_get row "product_id";
        row_get row "event_type"]
  else [row_get row "id"].

(** A snapshot with one customer, one product and two [view] events of that
    customer for that product, and the same snapshot with the two event rows
    exchanged. *)
Definition viewed_twice : gmap string dataframe :=
  list_to_map
    [("categories", frame 0 []);
     ("products", frame 1 [("id", [VInt 10]); ("name", [VStr "Novel"]);
                           ("category_id", [VNull]); ("price", [VInt 12])]);
     ("customers", frame 1 [("id", [VInt 100]); ("name", [VStr "Ada"]);
                            ("join_date", [VNull])]);
     ("orders", frame 0 []);
     ("order_items", frame 0 []);
     ("events",
      frame 2 [("customer_id", [VInt 100; VInt 100]);
               ("product_id", [VInt 10; VInt 10]);
               ("event_type", [VStr "view"; VStr "view"]);
               ("ts", [VStr "2023-03-06T10:00:00Z";
                       VStr "2023-03-07T10:00:00Z"])])].

Definition events_exchanged : dataframe :=
  frame 2 [("customer_id", [VInt 100; VInt 100]);
           ("product_id", [VInt 10; VInt 10]);
           ("event_type", [VStr "view"; VStr "view"]);
           ("ts", [VStr "2023-03-07T10:00:00Z";
                   VStr "2023-03-06T10:00:00Z"])].

(** Two products, and the same two rows exchanged. *)
Definition two_products : dataframe :=
  frame 2 [("id", [VInt 10; VInt 11]); ("name", [VStr "Novel"; VStr "Pen"]);
           ("category_id", [VInt 1; VInt 7]); ("price", [VInt 12; VInt 2])].

Definition two_products_exchanged : dataframe :=
  frame 2 [("id", [VInt 11; VInt 10]); ("name", [VStr "Pen"; VStr "Novel"]);
           ("category_id", [VInt 7; VInt 1]); ("price", [VInt 2; VInt 12])].

(** A probe that raises after two ticks on every run. *)
Definition failing_probe : nat -> probe_run string :=
  fun _ => ProbeRun (Some "connection refused") 2.

(** The copies live at fresh references, one per name, and the frames that
    were in the store stay where they are. *)
Definition copied (tables : gmap string nat) (h : gmap nat dataframe)
    (acc : gmap string nat * gmap nat dataframe) : Prop :=
  (forall r df, h !! r = Some df -> acc.2 !! r = Some df) /\
  dom acc.1 = dom tables /\
  (forall k r', acc.1 !! k = Some r' ->
     h !! r' = None /\
     exists r df, tables !! k = Some r /\ h !! r = Some df /\ acc.2 !! r' = Some df) /\
  (forall k1 k2 r', acc.1 !! k1 = Some r' -> acc.1 !! k2 = Some r' -> k1 = k2).

(** The attempt a gate run ended at. *)
Definition attempt_of {E} (r : wait_result E) : nat :=
  match r with Ready k _ => k | TimedOut _ k _ => k end.

(** A probe that raises twice and then succeeds, three ticks a run. *)
Definition third_time_lucky : nat -> probe_run string :=
  fun k => ProbeRun (if (k <? 2)%nat then Some "not yet" else None) 3.

(** Decimal digits only. *)
Definition is_digit (a : ascii) : bool :=
  let n := nat_of_ascii a in ((48 <=? n) && (n <=? 57))%nat.

Fixpoint all_digits (s : string) : bool :=
  match s with
  | EmptyString => true
  | String a s' => is_digit a && all_digits s'
  end.

(** A source store that cannot be reached, and one that answers every
    relation with an empty frame. *)
Definition unreachable_store : source_store :=
  {| src_connect := fun _ => Some "connection refused";
     src_query := fun _ => inl {| df_rows := 0; df_cols := ∅ |} |}.

Definition empty_store : source_store :=
  {| src_connect := fun _ => None;
     src_query := fun _ => inl {| df_rows := 0; df_cols := ∅ |} |}.

(** ** Schema file ([run_cypher_file], [etl.py] lines 60-65)

    [text.split(";")], then [q.strip()] for each part, keeping the parts
    that are not empty once stripped: the statements sent to the session,
    in order. *)






(** The node keys of a relation's rows under a label. *)
Definition node_ids (label : string) (rows : list (gmap string value))
    : gset node_key :=
  list_to_set (map (fun r => (label, row_get r "id")) rows).

(** Every relationship joins two nodes of the graph. *)
Definition well_linked (g : graph) : Prop :=
  forall r : rel_key, r ∈ rels g -> r.1.2 ∈ nodes g /\ r.2 ∈ nodes g.

(** Each relationship statement joins nodes it has matched or nodes that
    statements before it have merged ([U]). *)
Fixpoint links_ok (U : gset node_key) (l : list stmt) : Prop :=
  match l with
  | [] => True
  | SFail :: l' => links_ok U l'
  | SUpsert n _ :: l' => links_ok (U ∪ {[ n ]}) l'
  | SLink needs r _ :: l' =>
      (r.1.2 ∈ needs \/ r.1.2 ∈ U) /\ (r.2 ∈ needs \/ r.2 ∈ U) /\ links_ok U l'
  end.

(** The relationship a statement merges. *)
Definition stmt_rel (s : stmt) : option rel_key :=
  match s with SLink _ r _ => Some r | _ => None end.

(** An event of a customer that is not stored, with a timestamp no parser
    reads. *)
Definition stray_event : gmap string value :=
  list_to_map [("customer_id", VInt 999); ("product_id", VInt 10);
               ("event_type", VStr "view"); ("ts", VInt 0)].

Definition order_of_stranger : gmap string value :=
  list_to_map [("id", VInt 500); ("customer_id", VInt 999);
               ("ts", VStr "2023-03-05T14:30:00Z")].

(** ** Pipeline ([etl], [etl.py] lines 226-240)

    [etl] runs the two gates one after the other, then extracts, normalises
    and loads; a step that raises ends the run there.

    How a run ended, with what it left behind: the clock at which a gate
    gave up, the engine pool once the extractor ran, the graph once the load
    returned. *)
Inductive etl_run (E : Type) :=
  | PostgresGateRaised (e : E) (now : Z)
  | Neo4jGateRaised (e : E) (now : Z)
  | ExtractRaised (e : exn) (st : engine_state)
  | LoadRaised (st : engine_state)
  | EtlDone (st : engine_state) (g : graph).
Arguments PostgresGateRaised {E} _ _.
Arguments Neo4jGateRaised {E} _ _.
Arguments ExtractRaised {E} _ _.
Arguments LoadRaised {E} _.
Arguments EtlDone {E} _ _.

(** The dictionary [extract_postgres] returns binds each name to a frame
    object of its own: [store_frames] is the store that holds the objects,
    numbered as they come, and [frame_refs] the dictionary. *)
Definition frame_refs (tables : gmap string dataframe) : gmap string nat :=
  list_to_map (imap (fun i kv => (kv.1, i)) (map_to_list tables)).

Definition store_frames (tables : gmap string dataframe) : gmap nat dataframe :=
  map_seq 0 ((map_to_list tables).*2).

(** The frames a dictionary of references gives access to. *)
Definition load_frames (t : gmap string nat) (h : gmap nat dataframe)
    : gmap string dataframe :=
  omap (fun r => h !! r) t.

Section Pipeline.
Context `{Pandas} `{Cypher} {E : Type}.

Definition etl (hz : Z) (pg_probe neo4j_probe : nat -> probe_run E)
    (src : source_store) (fuel : nat) (start : Z) (st : engine_state)
    (g : graph) : option (etl_run E) :=
  match wait_for_postgres hz pg_probe WAIT_TIMEOUT_SEC fuel start with
  | None => None
  | Some (TimedOut e _ now) => Some (PostgresGateRaised e now)
  | Some (Ready _ now) =>
      match wait_for_neo4j hz neo4j_probe WAIT_TIMEOUT_SEC fuel now with
      | None => None
      | Some (TimedOut e _ now') => Some (Neo4jGateRaised e now')
      | Some (Ready _ _) =>
          match extract_postgres src st with
          | (st', Raise e) => Some (ExtractRaised e st')
          | (st', Ret tables) =>
              let '(t, h) :=
                normalize_tables (frame_refs tables) (store_frames tables) in
              match load_graph (load_frames t h) g with
              | None => Some (LoadRaised st')
              | Some g' => Some (EtlDone st' g')
              end
          end
      end
  end.

End Pipeline.

(** The extraction with its three temporal columns normalised. *)
Definition normalized `{Pandas} (tables : gmap string dataframe)
    : gmap string dataframe :=
  map_imap (fun k df => Some (normalize_frame k df)) tables.

(** A source store that serves six small relations, with dates as the
    source wrote them. *)
Definition raw_tables : gmap string dataframe :=
  list_to_map
    [("categories", frame 1 [("id", [VInt 1]); ("name", [VStr "Books"])]);
     ("products",
      frame 1 [("id", [VInt 10]); ("name", [VStr "Novel"]);
               ("category_id", [VInt 1]); ("price", [VInt 12])]);
     ("customers",
      frame 1 [("id", [VInt 100]); ("name", [VStr "Ada"]);
               ("join_date", [VStr " 2023-03-05 "])]);
     ("orders",
      frame 1 [("id", [VInt 500]); ("customer_id", [VInt 100]);
               ("ts", [VStr "2023-03-05 14:30:00"])]);
     ("order_items",
      frame 1 [("order_id", [VInt 500]); ("product_id", [VInt 10]);
               ("quantity", [VInt 2])]);
     ("events",
      frame 1 [("customer_id", [VInt 100]); ("product_id", [VInt 10]);
               ("event_type", [VStr "view"]);
               ("ts", [VStr "2023-03-06 10:00:00"])])].

Definition raw_store : source_store :=
  {| src_connect := fun _ => None;
     src_query := fun tbl =>
       match raw_tables !! tbl with
       | Some df => inl df
       | None => inr "relation does not exist"
       end |}.

Definition fresh_pool : engine_state :=
  {| engines := 0; open_connections := 0 |}.

(** The clock of a gate outcome moved by [d] ticks. *)
Definition shift_result {E} (d : Z) (r : wait_result E) : wait_result E :=
  match r with
  | Ready k t => Ready k (t + d)
  | TimedOut e k t => TimedOut e k (t + d)
  end.

(* ------------------------------------------------------------------ *)
(** * Properties *)
(* ------------------------------------------------------------------ *)

(** ** Batcher *)

Lemma chunk_loop_concat {A} (size : Z) (xs buf : list A) :
  concat (chunk_loop size buf xs) = buf ++ xs.
Proof.
  revert buf; induction xs as [|x xs IH]; intros buf; simpl.
  - destruct buf; simpl; [done | by rewrite !app_nil_r].
  - destruct (_ >=? _); simpl; rewrite IH; simpl; by rewrite <- app_assoc.
Qed.

Lemma chunk_concat {A} (xs : list A) (size : Z) :
  concat (chunk xs size) = xs.
Proof. apply chunk_loop_concat. Qed.

(** While the buffer and the rest of the input together stay below [size],
    nothing is emitted before the end of the input. *)
Lemma chunk_loop_short {A} (size : Z) (xs buf : list A) :
  Z.of_nat (length buf + length xs) < size ->
  chunk_loop size buf xs =
    match buf ++ xs with [] => [] | _ :: _ => [buf ++ xs] end.
Proof.
  revert buf; induction xs as [|x xs IH]; intros buf Hlt; simpl in *.
  - rewrite app_nil_r. by destruct buf.
  - rewrite length_app; simpl.
    destruct (Z.geb_spec (Z.of_nat (length buf + 1)) size) as [Hge|_]; [lia|].
    rewrite IH by (rewrite length_app; simpl; lia).
    rewrite <- app_assoc; simpl. done.
Qed.

(** Once enough input is available, the first emitted buffer is filled up to
    exactly [size] elements and the generator restarts from an empty one. *)
Lemma chunk_loop_full {A} (size : Z) (xs buf : list A) :
  Z.of_nat (length buf) < size ->
  size <= Z.of_nat (length buf + length xs) ->
  chunk_loop size buf xs =
    (buf ++ take (Z.to_nat size - length buf) xs)
      :: chunk_loop size [] (drop (Z.to_nat size - length buf) xs).
Proof.
  revert buf; induction xs as [|x xs IH]; intros buf Hlt Hge; simpl in *.
  - lia.
  - rewrite length_app; simpl.
    destruct (Z.geb_spec (Z.of_nat (length buf + 1)) size) as [Hfull|Hnot].
    + replace (Z.to_nat size - length buf)%nat with 1%nat by lia.
      simpl. by rewrite take_0, drop_0.
    + rewrite IH by (rewrite ?length_app; simpl; lia).
      rewrite length_app; simpl.
      replace (Z.to_nat size - length buf)%nat
        with (S (Z.to_nat size - (length buf + 1)))%nat by lia.
      simpl. by rewrite <- app_assoc.
Qed.

(** Shape of the output: [length xs / size] full batches followed by the
    remainder, when there is one. *)
Lemma chunk_shape {A} (size : Z) (Hpos : 0 < size) (n : nat) :
  forall xs : list A, length xs = n ->
  exists full rest,
    chunk xs size = full ++ rest /\
    Z.of_nat (length full) = Z.of_nat (length xs) / size /\
    Forall (fun c => Z.of_nat (length c) = size) full /\
    match rest with
    | [] => Z.of_nat (length xs) mod size = 0
    | [r] => r <> [] /\ Z.of_nat (length r) = Z.of_nat (length xs) mod size
             /\ Z.of_nat (length r) < size
    | _ => False
    end.
Proof.
  induction n as [n IH] using lt_wf_ind. intros xs Hn.
  destruct (Z.lt_ge_cases (Z.of_nat (length xs)) size) as [Hshort|Hlong].
  - exists [], (match xs with [] => [] | _ :: _ => [xs] end).
    unfold chunk. rewrite chunk_loop_short by (simpl; lia). simpl.
    rewrite Z.div_small, Z.mod_small by lia.
    destruct xs; simpl in *; repeat split; auto; try done; lia.
  - unfold chunk. rewrite chunk_loop_full by (simpl; lia). simpl.
    rewrite Nat.sub_0_r.
    assert (Hk : (Z.to_nat size <= length xs)%nat) by lia.
    destruct (IH (length (drop (Z.to_nat size) xs))
                (ltac:(rewrite length_drop; lia)) (drop (Z.to_nat size) xs) eq_refl)
      as (full & rest & Heq & Hlen & Hall & Hrest).
    exists (take (Z.to_nat size) xs :: full), rest.
    fold (chunk (drop (Z.to_nat size) xs) size). rewrite Heq.
    rewrite length_drop in Hlen, Hrest.
    assert (Hsub : Z.of_nat (length xs - Z.to_nat size) = Z.of_nat (length xs) + (-1) * size)
      by lia.
    rewrite Hsub in Hlen, Hrest.
    rewrite Z.div_add in Hlen by lia.
    rewrite Z.mod_add in Hrest by lia.
    repeat split; auto.
    + simpl length. lia.
    + constructor; [rewrite length_take; lia | done].
Qed.

(** C4.  For every finite input and every positive [size], [chunk] emits
    [length xs / size] consecutive batches of exactly [size] elements,
    followed by one non-empty remainder of fewer than [size] elements
    exactly when the length is not a multiple of [size]; concatenating the
    batches gives back the input; [chunk [1..2500] 1000] has batch sizes
    [1000; 1000; 500] and preserves the order; the empty input yields no
    batch. *)
Theorem chunk_batches (A : Type) (xs : list A) (size : Z) :
  0 < size ->
  concat (chunk xs size) = xs /\
  (exists full rest,
      chunk xs size = full ++ rest /\
      Z.of_nat (length full) = Z.of_nat (length xs) / size /\
      Forall (fun c => Z.of_nat (length c) = size) full /\
      match rest with
      | [] => Z.of_nat (length xs) mod size = 0
      | [r] => r <> [] /\ Z.of_nat (length r) = Z.of_nat (length xs) mod size
               /\ Z.of_nat (length r) < size
      | _ => False
      end) /\
  map (fun b => Z.of_nat (length b)) (chunk (range 1 2500) 1000)
    = [1000; 1000; 500] /\
  concat (chunk (range 1 2500) 1000) = range 1 2500 /\
  chunk (@nil A) size = [].
Proof.
  intros Hpos. split; [apply chunk_concat|].
  split; [by apply (chunk_shape size Hpos (length xs))|].
  split; [by vm_compute|].
  split; [apply chunk_concat | done].
Qed.

Lemma chunk_batches_witness :
  0 < 2 /\ concat (chunk [10; 20; 30; 40; 50] 2) = [10; 20; 30; 40; 50].
Proof.
  split; [lia|].
  exact (proj1 (chunk_batches Z [10; 20; 30; 40; 50] 2 ltac:(lia))).
Defined.

(** ** Readiness gate *)

Section Readiness.
Context {E : Type} (hz : Z) (probe : nat -> probe_run E)
        (timeout start : Z).
Hypothesis hz_pos : 0 < hz.

Lemma wait_loop_success fuel k now :
  pr_error (probe k) = None ->
  wait_loop hz probe timeout start (S fuel) k now
    = Some (Ready k (now + Z.of_nat (pr_cost (probe k)))).
Proof. intros Hok; simpl. by rewrite Hok. Qed.

Lemma wait_loop_failure fuel k now e :
  pr_error (probe k) = Some e ->
  wait_loop hz probe timeout start (S fuel) k now =
    if now + Z.of_nat (pr_cost (probe k)) - start >? timeout * hz
    then Some (TimedOut e k (now + Z.of_nat (pr_cost (probe k))))
    else wait_loop hz probe timeout start fuel (S k)
           (now + Z.of_nat (pr_cost (probe k)) + 1 * hz).
Proof. intros Hko; simpl. by rewrite Hko. Qed.

Lemma wait_loop_fuel n : forall m k now r,
  (n <= m)%nat ->
  wait_loop hz probe timeout start n k now = Some r ->
  wait_loop hz probe timeout start m k now = Some r.
Proof.
  induction n as [|n IH]; intros m k now r Hle Hrun; [done|].
  destruct m as [|m]; [lia|]. simpl in *.
  destruct (pr_error (probe k)); [|done].
  destruct (_ >? _); [done|]. apply IH; [lia | done].
Qed.

Variables (err : nat -> E) (D : Z).
Hypothesis always_fails : forall k, pr_error (probe k) = Some (err k).
Hypothesis cost_bound : forall k, Z.of_nat (pr_cost (probe k)) <= D.

Lemma wait_loop_raises n : forall k now,
  timeout * hz < (now - start) + Z.of_nat n * hz ->
  now - start <= timeout * hz + hz ->
  exists k' t,
    wait_loop hz probe timeout start (S n) k now
      = Some (TimedOut (err k') k' t) /\
    (k <= k')%nat /\
    timeout * hz < t - start <= timeout * hz + hz + D /\
    t - now = (probe_ticks probe k' - probe_ticks probe k)
              + Z.of_nat (pr_cost (probe k)) + Z.of_nat (k' - k) * hz.
Proof.
  induction n as [|n IH]; intros k now Hfar Hnear;
    rewrite (wait_loop_failure _ _ _ _ (always_fails k));
    pose proof (cost_bound k) as Hc;
    destruct (Z.gtb_spec (now + Z.of_nat (pr_cost (probe k)) - start)
                (timeout * hz)) as [Hgt|Hle].
  - exists k, (now + Z.of_nat (pr_cost (probe k))).
    repeat split; try lia.
  - lia.
  - exists k, (now + Z.of_nat (pr_cost (probe k))).
    repeat split; try lia.
  - destruct (IH (S k) (now + Z.of_nat (pr_cost (probe k)) + 1 * hz))
      as (k' & t & Hrun & Hk & Hbound & Htime); [lia | lia |].
    exists k', t. rewrite Hrun. repeat split; try lia.
    cbn [probe_ticks] in Htime.
    replace (k' - k)%nat with (S (k' - S k)) by lia. lia.
Qed.

Lemma await_ready_raises (Htimeout : 0 <= timeout) :
  raises_at_timeout hz (await_ready hz probe timeout) probe err
    timeout start D.
Proof.
  destruct (wait_loop_raises (Z.to_nat timeout + 1) 0%nat start)
    as (k & t & Hrun & _ & Hbound & Htime); [nia | nia |].
  exists (S (Z.to_nat timeout + 1)), k, t. repeat split; try lia.
  - intros fuel Hfuel. unfold await_ready.
    by apply (wait_loop_fuel _ _ _ _ _ Hfuel).
  - rewrite Htime. destruct k; cbn [probe_ticks]; lia.
Qed.
End Readiness.

(** C5.  A gate whose probe always fails terminates by re-raising the last
    probe failure, only once the elapsed time exceeds the timeout and at most
    one sleep and one probe run later, after sleeping one second between
    retries; this holds for both gates and in particular for the default
    timeout of 120 seconds.  A probe run that succeeds makes the gate return
    at once, without sleeping. *)
Theorem await_ready_timeout (E : Type) (hz : Z) (probe : nat -> probe_run E)
    (err : nat -> E) (timeout start D : Z) :
  0 < hz ->
  0 <= timeout ->
  (forall k, pr_error (probe k) = Some (err k)) ->
  (forall k, Z.of_nat (pr_cost (probe k)) <= D) ->
  raises_at_timeout hz (wait_for_postgres hz probe timeout) probe err
    timeout start D /\
  raises_at_timeout hz (wait_for_neo4j hz probe timeout) probe err
    timeout start D /\
  raises_at_timeout hz (wait_for_postgres hz probe WAIT_TIMEOUT_SEC) probe err
    120 start D /\
  (forall (q : nat -> probe_run E) fuel k now t0,
      pr_error (q k) = None ->
      wait_loop hz q t0 start (S fuel) k now
        = Some (Ready k (now + Z.of_nat (pr_cost (q k))))).
Proof.
  intros Hhz Htimeout Hfail Hcost.
  repeat split.
  - by apply await_ready_raises.
  - by apply await_ready_raises.
  - by apply await_ready_raises.
  - intros q fuel k now t0 Hok. by apply wait_loop_success.
Qed.

Lemma await_ready_timeout_witness :
  0 < 10 /\ 0 <= 120 /\
  (forall k, pr_error (failing_probe k) = Some "connection refused") /\
  (forall k, Z.of_nat (pr_cost (failing_probe k)) <= 2) /\
  raises_at_timeout 10 (wait_for_postgres 10 failing_probe 120) failing_probe
    (fun _ => "connection refused") 120 0 2.
Proof.
  split; [lia|]. split; [lia|]. split; [done|]. split; [simpl; lia|].
  exact (proj1 (await_ready_timeout string 10 failing_probe
                  (fun _ => "connection refused") 120 0 2
                  ltac:(lia) ltac:(lia) (fun _ => eq_refl)
                  (fun _ => ltac:(simpl; lia)))).
Defined.

(** ** Liveness probes *)

Lemma pg_ok_round_trip (pg : pg_server) : pg_ok pg = Ret (pg_round_trip pg).
Proof.
  destruct pg as [[?|] [?|] [?|] [?|] [?|] [?|]]; try done;
    unfold pg_round_trip; simpl;
    rewrite bool_decide_eq_false_2; try done; naive_solver.
Qed.

Lemma neo4j_ok_round_trip (neo : neo4j_server) :
  neo4j_ok neo = Ret (neo4j_round_trip neo).
Proof.
  destruct neo as [[?|] [?|] [?|] [?|] [?|] [?|]]; try done;
    unfold neo4j_round_trip; simpl;
    rewrite bool_decide_eq_false_2; try done; naive_solver.
Qed.

(** C10.  The liveness endpoint answers [{"ok": b}] where [b] is true exactly
    when the source-store round trip and the graph-store round trip both
    succeed; whatever step of either round trip fails, the probe returns
    false instead of raising, so the endpoint never raises. *)
Theorem health_boolean (pg : pg_server) (neo : neo4j_server) :
  pg_ok pg = Ret (pg_round_trip pg) /\
  neo4j_ok neo = Ret (neo4j_round_trip neo) /\
  health pg neo = Ret {[ "ok" := pg_round_trip pg && neo4j_round_trip neo ]} /\
  (pg_round_trip pg && neo4j_round_trip neo = true <->
     (pg_connect pg = None /\ pg_cursor pg = None /\
      pg_execute pg = None /\ pg_fetchone pg = None /\
      pg_cursor_exit pg = None /\ pg_close pg = None) /\
     (neo_driver neo = None /\ neo_session neo = None /\
      neo_run neo = None /\ neo_consume neo = None /\
      neo_session_exit neo = None /\ neo_driver_exit neo = None)).
Proof.
  split; [apply pg_ok_round_trip|].
  split; [apply neo4j_ok_round_trip|].
  split.
  - unfold health. rewrite pg_ok_round_trip. simpl.
    destruct (pg_round_trip pg); simpl; [|done].
    by rewrite neo4j_ok_round_trip.
  - rewrite andb_true_iff. unfold pg_round_trip, neo4j_round_trip.
    by rewrite !bool_decide_eq_true.
Qed.

(** ** Normaliser *)







Section NormalizeTables.
Context `{Pandas}.
Implicit Types (tables t : gmap string nat) (h : gmap nat dataframe).

Lemma rewrite_column_rows c f df : df_rows (rewrite_column c f df) = df_rows df.
Proof. unfold rewrite_column. by destruct (df_cols df !! c). Qed.

Lemma rewrite_column_lookup c f df c' :
  df_cols (rewrite_column c f df) !! c' =
    if decide (c' = c) then f <$> df_cols df !! c else df_cols df !! c'.
Proof.
  unfold rewrite_column. destruct (df_cols df !! c) as [series|] eqn:Hc; simpl.
  - rewrite lookup_insert. repeat case_decide; by simplify_eq.
  - case_decide; by simplify_eq.
Qed.

Lemma rewrite_column_dom c f df :
  dom (df_cols (rewrite_column c f df)) = dom (df_cols df).
Proof.
  apply set_eq. intros c'. rewrite !elem_of_dom, rewrite_column_lookup.
  case_decide; simplify_eq; [|done]. by rewrite fmap_is_Some.
Qed.

Lemma copy_tables_copied tables h :
  (forall k r, tables !! k = Some r -> is_Some (h !! r)) ->
  copied tables h (copy_tables tables h).
Proof.
  unfold copy_tables.
  apply (map_fold_weak_ind
           (fun acc m => (forall k r, m !! k = Some r -> is_Some (h !! r)) ->
                         copied m h acc)).
  - intros _. repeat split; simpl; done.
  - intros k r m [t h0] Hfresh IH Hwf.
    destruct IH as (Hkeep & Hdom & Hnew & Hinj).
    { intros k' r' Hk'. apply (Hwf k' r').
      rewrite lookup_insert_ne; [done|]. intros ->. congruence. }
    destruct (Hwf k r) as [df Hdf]; [by rewrite lookup_insert_eq|].
    simpl in *. rewrite (Hkeep _ _ Hdf).
    pose proof (is_fresh (dom h0)) as Hr'. set (r' := fresh (dom h0)) in *.
    apply not_elem_of_dom in Hr'.
    assert (Hh : h !! r' = None).
    { destruct (h !! r') as [df'|] eqn:Hh; [|done].
      apply Hkeep in Hh. congruence. }
    split; [|split; [|split]]; simpl.
    + intros r0 df0 Hr0. rewrite lookup_insert_ne; [by apply Hkeep|].
      intros <-. congruence.
    + by rewrite !dom_insert_L, Hdom.
    + intros k0 r0 Hk0. destruct (decide (k0 = k)) as [->|Hne].
      * rewrite lookup_insert_eq in Hk0. simplify_eq. split; [done|].
        exists r, df. by rewrite !lookup_insert_eq.
      * rewrite lookup_insert_ne in Hk0 by done.
        apply Hnew in Hk0 as (? & r1 & df1 & ? & ? & Hcopy).
        split; [done|]. exists r1, df1. rewrite lookup_insert_ne by done.
        repeat split; try done. rewrite lookup_insert_ne; [done|].
        intros <-. congruence.
    + intros k1 k2 r0 H1 H2.
      destruct (decide (k1 = k)) as [->|Hne1], (decide (k2 = k)) as [->|Hne2];
        try done.
      * rewrite lookup_insert_eq in H1. rewrite lookup_insert_ne in H2 by done.
        simplify_eq. apply Hnew in H2 as (_ & ? & ? & _ & _ & ?). congruence.
      * rewrite lookup_insert_eq in H2. rewrite lookup_insert_ne in H1 by done.
        simplify_eq. apply Hnew in H1 as (_ & ? & ? & _ & _ & ?). congruence.
      * rewrite lookup_insert_ne in H1, H2 by done. by eapply Hinj.
Qed.

Lemma normalize_in_place_lookup name c f t h r :
  normalize_in_place name c f t h !! r =
    if decide (t !! name = Some r) then rewrite_column c f <$> h !! r
    else h !! r.
Proof.
  unfold normalize_in_place. destruct (t !! name) as [r0|] eqn:Hname.
  - case_decide; simplify_eq.
    + by rewrite lookup_alter_eq.
    + rewrite lookup_alter_ne; [done|]. congruence.
  - by case_decide.
Qed.

End NormalizeTables.

Lemma normalize_frame_frame `{Pandas} (name : string) (df : dataframe) :
  df_rows (normalize_frame name df) = df_rows df /\
  dom (df_cols (normalize_frame name df)) = dom (df_cols df) /\
  (forall c, ~ temporal_column name c ->
     df_cols (normalize_frame name df) !! c = df_cols df !! c).
Proof.
  unfold normalize_frame, temporal_column.
  repeat case_decide; subst;
    rewrite ?rewrite_column_rows, ?rewrite_column_dom;
    (split; [done|split; [done|]]); intros c Hc;
    rewrite ?rewrite_column_lookup; try done;
    case_decide; try done; subst; naive_solver.
Qed.

(** C8.  [normalize_tables] leaves every frame that was in the store as it
    was, and returns a new dictionary with the same names, each bound to a
    fresh frame of its own.  The fresh frame has the rows and columns of the
    input frame, and its cells are equal to the input's except in
    [customers.join_date], [orders.ts] and [events.ts], which hold the
    normalised series when the input has that column.  A missing table or
    column is passed over. *)
Theorem normalize_tables_frame (P : Pandas) (tables : gmap string nat)
    (h : gmap nat dataframe) :
  (forall k r, tables !! k = Some r -> is_Some (h !! r)) ->
  let t := (normalize_tables tables h).1 in
  let h' := (normalize_tables tables h).2 in
  (forall r df, h !! r = Some df -> h' !! r = Some df) /\
  dom t = dom tables /\
  (forall k1 k2 r', t !! k1 = Some r' -> t !! k2 = Some r' -> k1 = k2) /\
  (forall k r df, tables !! k = Some r -> h !! r = Some df ->
     exists r' df',
       t !! k = Some r' /\ h !! r' = None /\ h' !! r' = Some df' /\
       df' = normalize_frame k df /\
       df_rows df' = df_rows df /\
       dom (df_cols df') = dom (df_cols df) /\
       (forall c, ~ temporal_column k c -> df_cols df' !! c = df_cols df !! c) /\
       (df_cols df' !! "join_date" =
          if decide (k = "customers")
          then _to_date_str <$> df_cols df !! "join_date"
          else df_cols df !! "join_date") /\
       (df_cols df' !! "ts" =
          if decide (k = "orders" \/ k = "events")
          then _to_datetime_str <$> df_cols df !! "ts"
          else df_cols df !! "ts")).
Proof.
  intros Hwf. unfold normalize_tables.
  pose proof (copy_tables_copied tables h Hwf) as Hcopy.
  destruct (copy_tables tables h) as [t h0].
  destruct Hcopy as (Hkeep & Hdom & Hnew & Hinj). simpl in *.
  assert (Hlookup : forall k r', t !! k = Some r' ->
    normalize_in_place "events" "ts" _to_datetime_str t
      (normalize_in_place "orders" "ts" _to_datetime_str t
         (normalize_in_place "customers" "join_date" _to_date_str t h0)) !! r'
    = normalize_frame k <$> h0 !! r').
  { intros k r' Hk. rewrite !normalize_in_place_lookup. unfold normalize_frame.
    destruct (h0 !! r') as [df|]; simpl;
      repeat (case_decide; simpl; subst); try done;
      match goal with
      | H1 : t !! ?a = Some r', H2 : t !! ?b = Some r' |- _ =>
          by pose proof (Hinj _ _ _ H1 H2)
      | H1 : t !! ?a = Some r', H2 : t !! ?a <> Some r' |- _ => done
      end. }
  repeat split; try done.
  - intros r df Hr. rewrite !normalize_in_place_lookup.
    repeat case_decide;
      try match goal with
          | H1 : t !! _ = Some r |- _ => apply Hnew in H1 as [? _]; congruence
          end.
    by apply Hkeep.
  - intros k r df Hk Hr.
    assert (is_Some (t !! k)) as [r' Hr'].
    { apply elem_of_dom. rewrite Hdom. by apply elem_of_dom. }
    destruct (Hnew _ _ Hr') as (Hfresh & r0 & df0 & Hk0 & Hr0 & Hcopy).
    simplify_eq.
    exists r', (normalize_frame k df).
    rewrite (Hlookup _ _ Hr'), Hcopy. simpl.
    destruct (normalize_frame_frame k df) as (Hrows & Hcols & Hframe).
    repeat split; try done.
    + unfold normalize_frame.
      repeat case_decide; subst; rewrite ?rewrite_column_lookup; try done;
        repeat case_decide; try done; intuition congruence.
    + unfold normalize_frame.
      repeat case_decide; subst; rewrite ?rewrite_column_lookup; try done;
        repeat case_decide; try done; intuition congruence.
Qed.

Lemma normalize_tables_frame_witness :
  (forall k r, ({[ "customers" := 0%nat ]} : gmap string nat) !! k = Some r ->
     is_Some (({[ 0%nat := sample_customers ]} : gmap nat dataframe) !! r)) /\
  (forall r df,
     ({[ 0%nat := sample_customers ]} : gmap nat dataframe) !! r = Some df ->
     (@normalize_tables iso_pandas {[ "customers" := 0%nat ]}
        {[ 0%nat := sample_customers ]}).2 !! r = Some df).
Proof.
  assert (Hwf : forall k r,
    ({[ "customers" := 0%nat ]} : gmap string nat) !! k = Some r ->
    is_Some (({[ 0%nat := sample_customers ]} : gmap nat dataframe) !! r)).
  { intros k r Hk. apply lookup_singleton_Some in Hk as [_ <-].
    rewrite lookup_singleton_eq. by eexists. }
  split; [exact Hwf|].
  exact (proj1 (normalize_tables_frame iso_pandas _ _ Hwf)).
Defined.

(** ** Extractor *)

Lemma read_relations_ok (src : source_store) (names : list string) :
  forall tables st,
  (forall tbl, tbl ∈ names ->
     src_connect src tbl = None /\ exists df, src_query src tbl = inl df) ->
  exists st' out,
    read_relations src names tables st = (st', Ret out) /\
    engines st' = engines st /\
    dom out = dom tables ∪ list_to_set names.
Proof.
  induction names as [|tbl rest IH]; intros tables st Hok; simpl.
  - exists st, tables. repeat split. set_solver.
  - destruct (Hok tbl) as (Hconn & df & Hq); [set_solver|].
    unfold read_sql_query. rewrite Hconn, Hq.
    destruct (open_connections st) eqn:Hopen;
      (edestruct IH as (st' & out & -> & Heng & Hdom); [set_solver|]);
      exists st', out; repeat split; try done;
      rewrite Hdom, dom_insert_L; set_solver.
Qed.

(** When every read succeeds the engine is disposed: one engine was made,
    no connection stays open, and the six relations are returned. *)
Lemma extract_postgres_success (src : source_store) (st : engine_state) :
  (forall tbl, tbl ∈ RELATIONS ->
     src_connect src tbl = None /\ exists df, src_query src tbl = inl df) ->
  exists out,
    extract_postgres src st
      = ({| engines := S (engines st); open_connections := 0 |}, Ret out) /\
    dom out = list_to_set RELATIONS.
Proof.
  intros Hok. unfold extract_postgres.
  destruct (read_relations_ok src RELATIONS ∅ (create_engine st) Hok)
    as (st' & out & -> & Heng & Hdom).
  exists out. unfold dispose. rewrite Heng. split; [done|].
  rewrite Hdom. set_solver.
Qed.

(** C9 (the code departs from it).  With a source store whose [orders]
    relation is gone, the fourth read raises and [extract_postgres] leaves
    without disposing its engine: the connection opened for the first read
    is still open when the error reaches the caller. *)
Theorem extract_postgres_leak :
  extract_postgres store_without_orders {| engines := 0; open_connections := 0 |}
    = ({| engines := 1; open_connections := 1 |},
       Raise (Exception "relation orders does not exist")).
Proof. reflexivity. Qed.

(** ** Graph store: writes *)

Lemma set_cell_set_cell `{Countable K} (k : K) (v v' : value) (m : gmap K value) :
  set_cell k v' (set_cell k v m) = set_cell k v' m.
Proof. unfold set_cell. by rewrite partial_alter_partial_alter_eq. Qed.

Lemma set_cell_comm `{Countable K} (k k' : K) (v v' : value) (m : gmap K value) :
  k <> k' ->
  set_cell k' v' (set_cell k v m) = set_cell k v (set_cell k' v' m).
Proof. intros. unfold set_cell. by rewrite partial_alter_partial_alter_ne. Qed.

(** A later write to the same place makes the earlier one invisible. *)
Lemma apply_write_absorb (a b : write) (g : graph) :
  loc a = loc b -> apply_write (apply_write g a) b = apply_write g b.
Proof.
  destruct a, b; simpl; intros Hloc; try done; simplify_eq; f_equal;
    try apply set_cell_set_cell; set_solver.
Qed.

(** Writes to different places commute. *)
Lemma apply_write_comm (a b : write) (g : graph) :
  loc a <> loc b ->
  apply_write (apply_write g a) b = apply_write (apply_write g b) a.
Proof.
  destruct a, b; simpl; intros Hloc; try done; f_equal;
    try (apply set_cell_comm; congruence); set_solver.
Qed.

Lemma apply_writes_app (ws ws' : list write) (g : graph) :
  apply_writes (ws ++ ws') g = apply_writes ws' (apply_writes ws g).
Proof. apply foldl_app. Qed.

Lemma apply_writes_again (ws : list write) (a : write) : forall g,
  apply_write (apply_writes ws (apply_write g a)) a
    = apply_write (apply_writes ws g) a.
Proof.
  induction ws as [|b ws IH]; intros g; simpl.
  - by apply apply_write_absorb.
  - destruct (decide (loc a = loc b)) as [Heq|Hne].
    + by rewrite apply_write_absorb.
    + by rewrite apply_write_comm, IH.
Qed.

(** Replaying a list of writes on its own result changes nothing. *)
Lemma apply_writes_replay (ws : list write) : forall g,
  apply_writes ws (apply_writes ws g) = apply_writes ws g.
Proof.
  induction ws as [|a ws IH] using rev_ind; intros g; [done|].
  rewrite !apply_writes_app. simpl.
  rewrite apply_writes_again. by rewrite IH.
Qed.

Lemma nodes_apply_writes (ws : list write) : forall g,
  nodes (apply_writes ws g) = nodes g ∪ created ws.
Proof.
  unfold created.
  induction ws as [|w ws IH]; intros g; [simpl; set_solver|].
  change (apply_writes (w :: ws) g) with (apply_writes ws (apply_write g w)).
  rewrite IH. destruct w; simpl; set_solver.
Qed.

(** ** Graph store: statements *)

Lemma created_app (ws ws' : list write) :
  created (ws ++ ws') = created ws ∪ created ws'.
Proof. unfold created. rewrite omap_app. set_solver. Qed.

Lemma created_cons (w : write) (ws : list write) :
  created (w :: ws)
    = match w with WNode n => {[ n ]} | _ => ∅ end ∪ created ws.
Proof. unfold created. destruct w; simpl; set_solver. Qed.

Lemma created_upsert_writes n sets : created (upsert_writes n sets) = {[ n ]}.
Proof.
  unfold upsert_writes. rewrite created_cons.
  assert (Hnone : created (map (fun pv => WNodeProp n pv.1 pv.2) sets) = ∅).
  { induction sets as [|pv sets IH]; [done|].
    rewrite map_cons, created_cons, IH. set_solver. }
  rewrite Hnone. set_solver.
Qed.

Lemma created_link_writes r sets : created (link_writes r sets) = ∅.
Proof.
  unfold link_writes. rewrite created_cons.
  assert (Hnone : created (map (fun pv => WRelProp r pv.1 pv.2) sets) = ∅).
  { induction sets as [|pv sets IH]; [done|].
    rewrite map_cons, created_cons, IH. set_solver. }
  rewrite Hnone. set_solver.
Qed.

Lemma upserts_cons s l : upserts (s :: l) = stmt_upserts s ∪ upserts l.
Proof. done. Qed.

Lemma upserts_app l1 l2 : upserts (l1 ++ l2) = upserts l1 ∪ upserts l2.
Proof. unfold upserts. rewrite fmap_app, union_list_app_L. done. Qed.

Lemma exec_stmts_app l1 l2 g :
  exec_stmts (l1 ++ l2) g = exec_stmts l1 g ≫= exec_stmts l2.
Proof.
  revert g; induction l1 as [|s l1 IH]; intros g; simpl; [done|].
  destruct (exec_stmt s g); simpl; [apply IH | done].
Qed.

(** Running statements is performing their trace. *)
Lemma exec_trace l : forall g,
  exec_stmts l g = (fun ws => apply_writes ws g) <$> trace l (nodes g).
Proof.
  induction l as [|s l IH]; intros g; [done|].
  destruct s as [|n sets|needs r sets]; cbn [exec_stmts exec_stmt trace];
    [done| |].
  - rewrite IH, nodes_apply_writes, created_upsert_writes.
    destruct (trace l _) as [ws|]; simpl; [|done].
    by rewrite apply_writes_app.
  - destruct (forallb _ needs); [|apply IH].
    destruct sets as [sets|]; [|done].
    rewrite IH, nodes_apply_writes, created_link_writes, union_empty_r_L.
    destruct (trace l _) as [ws|]; simpl; [|done].
    by rewrite apply_writes_app.
Qed.

Lemma trace_created l : forall N ws,
  trace l N = Some ws -> created ws ⊆ upserts l.
Proof.
  induction l as [|s l IH]; intros N ws Htrace.
  - by simplify_eq/=.
  - rewrite upserts_cons.
    destruct s as [|n sets|needs r sets]; cbn [trace stmt_upserts] in *;
      [done| |].
    + destruct (trace l _) as [ws'|] eqn:Hl; simplify_eq.
      rewrite created_app, created_upsert_writes.
      apply IH in Hl. set_solver.
    + destruct (forallb _ needs).
      * destruct sets as [sets|], (trace l N) as [ws'|] eqn:Hl; simplify_eq.
        rewrite created_app, created_link_writes.
        apply IH in Hl. set_solver.
      * apply IH in Htrace. set_solver.
Qed.

Lemma forallb_matched_stable (N C : gset node_key) (needs : list node_key) :
  (forall n, n ∈ needs -> n ∈ C -> n ∈ N) ->
  forallb (matched (N ∪ C)) needs = forallb (matched N) needs.
Proof.
  induction needs as [|n needs IH]; intros Hin; simpl; [done|].
  rewrite IH by (intros; apply Hin; set_solver). f_equal.
  unfold matched. f_equal. apply bool_decide_ext.
  specialize (Hin n). set_solver.
Qed.

(** Nodes that the statements themselves create, added to the store
    beforehand, do not change what creators-first statements write. *)
Lemma trace_stable l : forall N C,
  ordered l -> C ⊆ N ∪ upserts l -> trace l (N ∪ C) = trace l N.
Proof.
  induction l as [|s l IH]; intros N C Hord HC; [done|].
  destruct Hord as [Hneeds Hord]. rewrite upserts_cons in HC.
  destruct s as [|n sets|needs r sets]; simpl in *; [done| |].
  - replace (N ∪ C ∪ {[n]}) with ((N ∪ {[n]}) ∪ C) by set_solver.
    rewrite IH; [done|done|set_solver].
  - rewrite forallb_matched_stable.
    2:{ intros n Hn HnC. specialize (Hneeds n Hn). set_solver. }
    rewrite IH; [done|done|set_solver].
Qed.

(** Replaying creators-first statements on their own result changes
    nothing. *)
Lemma exec_stmts_replay l g g1 :
  ordered l -> exec_stmts l g = Some g1 -> exec_stmts l g1 = Some g1.
Proof.
  intros Hord Hrun. rewrite exec_trace in Hrun.
  destruct (trace l (nodes g)) as [ws|] eqn:Htrace; simplify_eq/=.
  rewrite exec_trace, nodes_apply_writes.
  rewrite trace_stable, Htrace; simpl.
  - by rewrite apply_writes_replay.
  - done.
  - apply trace_created in Htrace. set_solver.
Qed.

(** ** Graph loader: batching is invisible *)

Section LoaderSteps.
Context `{Cypher}.
Implicit Types (q : gmap string value -> list stmt)
               (rows : list (gmap string value)).

Lemma run_batches_concat q (batches : list (list (gmap string value))) :
  forall g, run_batches q batches g = exec_stmts (flat_map q (concat batches)) g.
Proof.
  induction batches as [|b bs IH]; intros g; simpl; [done|].
  rewrite flat_map_app, exec_stmts_app. unfold run_query.
  destruct (exec_stmts (flat_map q b) g); simpl; [apply IH | done].
Qed.

Lemma load_step_rows q rows g :
  load_step q rows g = exec_stmts (flat_map q rows) g.
Proof. unfold load_step. by rewrite run_batches_concat, chunk_concat. Qed.

Lemma load_events_plan (events : list (gmap string value)) g :
  load_events events g = exec_stmts (events_plan events) g.
Proof.
  unfold load_events, events_plan.
  rewrite exec_stmts_app, load_step_rows.
  destruct (exec_stmts _ g) as [g1|]; simpl; [|done].
  rewrite exec_stmts_app, load_step_rows.
  destruct (exec_stmts _ g1) as [g2|]; simpl; [|done].
  by rewrite load_step_rows.
Qed.

Lemma load_graph_plan (tables : gmap string dataframe) g :
  load_graph tables g = load_plan tables ≫= fun l => exec_stmts l g.
Proof.
  unfold load_graph, load_plan, run_cypher_file. simpl.
  destruct (records tables "categories") as [cats|]; simpl; [|done].
  rewrite load_step_rows.
  destruct (records tables "products") as [prods|]; simpl;
    [|by destruct (exec_stmts _ g)].
  destruct (records tables "customers") as [custs|]; simpl.
  2:{ destruct (exec_stmts _ g) as [g1|]; simpl; [|done].
      by destruct (load_step _ _ g1). }
  destruct (records tables "orders") as [orders|]; simpl.
  2:{ destruct (exec_stmts _ g) as [g1|]; simpl; [|done].
      destruct (load_step _ _ g1) as [g2|]; simpl; [|done].
      by destruct (load_step _ _ g2). }
  destruct (records tables "order_items") as [items|]; simpl.
  2:{ destruct (exec_stmts _ g) as [g1|]; simpl; [|done].
      destruct (load_step _ _ g1) as [g2|]; simpl; [|done].
      destruct (load_step _ _ g2) as [g3|]; simpl; [|done].
      by destruct (load_step _ _ g3). }
  destruct (records tables "events") as [events|]; simpl.
  2:{ destruct (exec_stmts _ g) as [g1|]; simpl; [|done].
      destruct (load_step _ _ g1) as [g2|]; simpl; [|done].
      destruct (load_step _ _ g2) as [g3|]; simpl; [|done].
      destruct (load_step _ _ g3) as [g4|]; simpl; [|done].
      by destruct (load_step _ _ g4). }
  rewrite exec_stmts_app.
  destruct (exec_stmts _ g) as [g1|]; simpl; [|done].
  rewrite exec_stmts_app, load_step_rows.
  destruct (exec_stmts _ g1) as [g2|]; simpl; [|done].
  rewrite exec_stmts_app, load_step_rows.
  destruct (exec_stmts _ g2) as [g3|]; simpl; [|done].
  rewrite exec_stmts_app, load_step_rows.
  destruct (exec_stmts _ g3) as [g4|]; simpl; [|done].
  rewrite exec_stmts_app, load_step_rows.
  destruct (exec_stmts _ g4) as [g5|]; simpl; [|done].
  apply load_events_plan.
Qed.

End LoaderSteps.

(** ** Graph loader: creators come before referencers *)

Lemma upserts_in_elem U l n : upserts_in U l -> n ∈ upserts l -> n.1 ∈ U.
Proof.
  unfold upserts_in, upserts. intros Hall Hn.
  apply elem_of_union_list in Hn as (X & HX & Hn).
  apply list_elem_of_fmap in HX as (s & -> & Hs).
  rewrite Forall_forall in Hall. by apply (Hall s).
Qed.

Lemma ordered_app_labels U Nd l1 l2 :
  ordered l1 -> ordered l2 -> needs_in Nd l1 -> upserts_in U l2 ->
  (forall x, x ∈ Nd -> x ∉ U) ->
  ordered (l1 ++ l2).
Proof.
  intros Hord1 Hord2 Hneeds Hups Hdisj.
  induction l1 as [|s l1 IH]; simpl in *; [done|].
  destruct Hord1 as [Hs Hord1]. apply Forall_cons in Hneeds as [Hn Hneeds].
  split; [|by apply IH].
  intros n Hin. rewrite upserts_app, not_elem_of_union. split; [by apply Hs|].
  intros Hup. apply (Hdisj n.1); [by apply Hn | by eapply upserts_in_elem].
Qed.

Lemma ordered_labels U Nd l :
  upserts_in U l -> needs_in Nd l -> (forall x, x ∈ Nd -> x ∉ U) -> ordered l.
Proof.
  intros Hups Hneeds Hdisj.
  induction l as [|s l IH]; simpl; [done|].
  apply Forall_cons in Hups as [_ Hups].
  apply Forall_cons in Hneeds as [Hn Hneeds].
  split; [|by apply IH].
  intros n Hin Hup. apply (Hdisj n.1); [by apply Hn | by eapply upserts_in_elem].
Qed.

Lemma Forall_flat_map_rows {A B} (P : B -> Prop) (f : A -> list B) (l : list A) :
  (forall x, Forall P (f x)) -> Forall P (flat_map f l).
Proof.
  intros Hf. induction l as [|x l IH]; simpl; [done|].
  apply Forall_app. by split.
Qed.

Lemma upserts_in_app U l1 l2 :
  upserts_in U l1 -> upserts_in U l2 -> upserts_in U (l1 ++ l2).
Proof. intros. apply Forall_app. by split. Qed.

Lemma needs_in_app Nd l1 l2 :
  needs_in Nd l1 -> needs_in Nd l2 -> needs_in Nd (l1 ++ l2).
Proof. intros. apply Forall_app. by split. Qed.

Lemma upserts_in_mono U U' l :
  (forall x, x ∈ U -> x ∈ U') -> upserts_in U l -> upserts_in U' l.
Proof.
  intros Hsub Hin. eapply Forall_impl; [exact Hin|].
  intros s Hs n Hn. by apply Hsub, Hs.
Qed.

Section LoaderOrder.
Context `{Cypher}.

Ltac row_labels :=
  repeat first
    [ apply Forall_nil_2
    | apply Forall_cons; split ];
  simpl; intros n Hn; set_solver.

Lemma category_row_labels row :
  upserts_in ["Category"] (category_row row) /\ needs_in [] (category_row row).
Proof.
  unfold category_row, upserts_in, needs_in.
  destruct (row_get row "id"); split; row_labels.
Qed.

Lemma product_row_labels row :
  upserts_in ["Product"] (product_row row) /\
  needs_in ["Category"] (product_row row).
Proof.
  unfold product_row, upserts_in, needs_in.
  destruct (row_get row "id"); split; row_labels.
Qed.

Lemma customer_row_labels row :
  upserts_in ["Customer"] (customer_row row) /\ needs_in [] (customer_row row).
Proof.
  unfold customer_row, upserts_in, needs_in.
  destruct (row_get row "id"), (guarded cy_date (row_get row "join_date"));
    split; row_labels.
Qed.

Lemma order_row_labels row :
  upserts_in ["Order"] (order_row row) /\ needs_in ["Customer"] (order_row row).
Proof.
  unfold order_row, upserts_in, needs_in.
  destruct (row_get row "id"), (guarded cy_datetime (row_get row "ts"));
    split; row_labels.
Qed.

Lemma order_item_row_labels row :
  upserts_in [] (order_item_row row) /\
  needs_in ["Order"; "Product"] (order_item_row row).
Proof. unfold order_item_row, upserts_in, needs_in. split; row_labels. Qed.

Lemma event_row_labels rel_type row :
  upserts_in [] (event_row rel_type row) /\
  needs_in ["Customer"; "Product"] (event_row rel_type row).
Proof. unfold event_row, upserts_in, needs_in. split; row_labels. Qed.

Lemma events_plan_labels events :
  upserts_in [] (events_plan events) /\
  needs_in ["Customer"; "Product"] (events_plan events).
Proof.
  unfold events_plan, upserts_in, needs_in.
  split; repeat apply Forall_app_2;
    apply Forall_flat_map_rows; intros row; apply event_row_labels.
Qed.

End LoaderOrder.

Section LoaderReplay.
Context `{Cypher}.

Ltac step_labels lem :=
  apply Forall_flat_map_rows; intros row; apply lem.

Lemma load_plan_ordered (tables : gmap string dataframe) (l : list stmt) :
  load_plan tables = Some l -> ordered l.
Proof.
  unfold load_plan. intros Hplan.
  destruct (records tables "categories") as [cats|]; [|done].
  destruct (records tables "products") as [prods|]; [|done].
  destruct (records tables "customers") as [custs|]; [|done].
  destruct (records tables "orders") as [orders|]; [|done].
  destruct (records tables "order_items") as [items|]; [|done].
  destruct (records tables "events") as [events|]; [|done].
  simpl in Hplan. simplify_eq.
  destruct (events_plan_labels events) as [Hu7 Hn7].
  assert (Hu6 : upserts_in [] (flat_map order_item_row items))
    by step_labels order_item_row_labels.
  assert (Hn6 : needs_in ["Order"; "Product"] (flat_map order_item_row items))
    by step_labels order_item_row_labels.
  assert (Hu5 : upserts_in ["Order"] (flat_map order_row orders))
    by step_labels order_row_labels.
  assert (Hn5 : needs_in ["Customer"] (flat_map order_row orders))
    by step_labels order_row_labels.
  assert (Hu4 : upserts_in ["Customer"] (flat_map customer_row custs))
    by step_labels customer_row_labels.
  assert (Hn4 : needs_in [] (flat_map customer_row custs))
    by step_labels customer_row_labels.
  assert (Hu3 : upserts_in ["Product"] (flat_map product_row prods))
    by step_labels product_row_labels.
  assert (Hn3 : needs_in ["Category"] (flat_map product_row prods))
    by step_labels product_row_labels.
  assert (Hu2 : upserts_in ["Category"] (flat_map category_row cats))
    by step_labels category_row_labels.
  assert (Hn2 : needs_in [] (flat_map category_row cats))
    by step_labels category_row_labels.
  assert (Ho7 : ordered (events_plan events))
    by (eapply ordered_labels; [done|done|set_solver]).
  assert (Ho6 : ordered (flat_map order_item_row items ++ events_plan events)).
  { eapply ordered_app_labels; [|done|done|done|set_solver].
    eapply ordered_labels; [done|done|set_solver]. }
  assert (Hu67 : upserts_in []
            (flat_map order_item_row items ++ events_plan events))
    by by apply upserts_in_app.
  assert (Ho5 : ordered (flat_map order_row orders ++
                  flat_map order_item_row items ++ events_plan events)).
  { eapply ordered_app_labels; [|done|done|done|set_solver].
    eapply ordered_labels; [done|done|set_solver]. }
  assert (Hu57 : upserts_in ["Customer"; "Order"]
            (flat_map order_row orders ++
             flat_map order_item_row items ++ events_plan events)).
  { apply upserts_in_app;
      [apply (upserts_in_mono ["Order"]) | apply (upserts_in_mono [])];
      try done; set_solver. }
  assert (Ho4 : ordered (flat_map customer_row custs ++
                  flat_map order_row orders ++
                  flat_map order_item_row items ++ events_plan events)).
  { eapply ordered_app_labels; [|done|done|done|set_solver].
    eapply ordered_labels; [done|done|set_solver]. }
  assert (Hu47 : upserts_in ["Customer"; "Order"]
            (flat_map customer_row custs ++
             flat_map order_row orders ++
             flat_map order_item_row items ++ events_plan events)).
  { apply upserts_in_app; [|done].
    apply (upserts_in_mono ["Customer"]); [set_solver|done]. }
  assert (Ho3 : ordered (flat_map product_row prods ++
                  flat_map customer_row custs ++
                  flat_map order_row orders ++
                  flat_map order_item_row items ++ events_plan events)).
  { eapply ordered_app_labels; [|done|done|done|set_solver].
    eapply ordered_labels; [done|done|set_solver]. }
  apply (ordered_app_labels ["Product"; "Customer"; "Order"] []);
    [|done|done| |set_solver].
  - eapply ordered_labels; [done|done|set_solver].
  - apply upserts_in_app.
    + apply (upserts_in_mono ["Product"]); [set_solver|done].
    + apply (upserts_in_mono ["Customer"; "Order"]); [set_solver|done].
Qed.

(** A second load of the same tables on the result of the first leaves
    the graph as it is. *)
Lemma load_graph_replay (tables : gmap string dataframe) (g g1 : graph) :
  load_graph tables g = Some g1 -> load_graph tables g1 = Some g1.
Proof.
  rewrite !load_graph_plan.
  destruct (load_plan tables) as [l|] eqn:Hplan; simpl; [|done].
  apply exec_stmts_replay. by eapply load_plan_ordered.
Qed.

End LoaderReplay.

(** C1.  Loading the same tables a second time, on the graph the first load
    produced, gives that graph again: the same nodes and relationships (so
    the same counts) and the same properties.  Loading twice in a row is
    loading once, also when the load raises. *)
Theorem load_graph_idempotent (cy : Cypher) (tables : gmap string dataframe)
    (g : graph) :
  (load_graph tables g ≫= load_graph tables) = load_graph tables g /\
  (forall g1, load_graph tables g = Some g1 ->
     exists g2, load_graph tables g1 = Some g2 /\
       g2 = g1 /\
       size (nodes g2) = size (nodes g1) /\
       size (rels g2) = size (rels g1) /\
       node_props g2 = node_props g1 /\
       rel_props g2 = rel_props g1).
Proof.
  split.
  - destruct (load_graph tables g) as [g1|] eqn:Hload; simpl; [|done].
    by apply (load_graph_replay tables g).
  - intros g1 Hload. exists g1. split; [by eapply load_graph_replay | done].
Qed.

Lemma load_graph_idempotent_witness :
  exists g1,
    @load_graph sample_cypher sample_tables empty_graph = Some g1 /\
    @load_graph sample_cypher sample_tables g1 = Some g1.
Proof.
  assert (Hsome : is_Some (@load_graph sample_cypher sample_tables empty_graph))
    by (apply (bool_decide_unpack _); vm_compute; exact I).
  destruct Hsome as [g1 Hload]. exists g1. split; [exact Hload|].
  destruct (proj2 (load_graph_idempotent sample_cypher sample_tables empty_graph)
              g1 Hload) as (g2 & Hg2 & -> & _).
  exact Hg2.
Defined.

(** ** Graph loader: the referential guard *)

Lemma exec_stmts_nodes l g g' :
  exec_stmts l g = Some g' ->
  nodes g ⊆ nodes g' /\ nodes g' ⊆ nodes g ∪ upserts l.
Proof.
  rewrite exec_trace. intros Hrun.
  destruct (trace l (nodes g)) as [ws|] eqn:Htrace; simplify_eq/=.
  rewrite nodes_apply_writes. apply trace_created in Htrace. set_solver.
Qed.

Lemma matched_ext (N N' : gset node_key) (n : node_key) :
  (n ∈ N <-> n ∈ N') -> matched N n = matched N' n.
Proof. intros Hiff. unfold matched. f_equal. by apply bool_decide_ext. Qed.

(** Statements that create no node of [n]'s label leave [MATCH n] as it
    was. *)
Lemma matched_preserved U l g g' (n : node_key) :
  exec_stmts l g = Some g' -> upserts_in U l -> n.1 ∉ U ->
  matched (nodes g') n = matched (nodes g) n.
Proof.
  intros Hrun Hups Hlabel. apply exec_stmts_nodes in Hrun as [Hsub Hsup].
  apply matched_ext. split; [|set_solver].
  intros Hn. apply Hsup, elem_of_union in Hn as [Hn|Hn]; [done|].
  by apply (upserts_in_elem U) in Hn.
Qed.

Lemma upserts_category_rows `{Cypher} (cats : list (gmap string value))
    (n : node_key) :
  n ∈ upserts (flat_map category_row cats) ->
  exists c, c ∈ cats /\ n = ("Category", row_get c "id").
Proof.
  induction cats as [|c cats IH]; simpl.
  - unfold upserts. simpl. set_solver.
  - rewrite upserts_app, elem_of_union. intros [Hn|Hn].
    + exists c. split; [set_solver|].
      unfold category_row in Hn.
      destruct (row_get c "id"); unfold upserts in Hn; simpl in Hn; set_solver.
    + destruct (IH Hn) as (c' & Hc' & ->). exists c'. set_solver.
Qed.

(** The effect of one product row on a store where its category does not
    match. *)
Lemma product_row_unmatched `{Cypher} (row : gmap string value) (g : graph) :
  row_get row "id" <> VNull ->
  matched (nodes g) ("Category", row_get row "category_id") = false ->
  exec_stmts (product_row row) g =
    Some (Graph ({[ ("Product", row_get row "id") ]} ∪ nodes g)
            (set_cell (("Product", row_get row "id"), "price")
               (toFloat (row_get row "price"))
               (set_cell (("Product", row_get row "id"), "name")
                  (row_get row "name") (node_props g)))
            (rels g) (rel_props g)).
Proof.
  intros Hid Hcat. unfold product_row.
  assert (Hm : forall id, matched ({[ ("Product", id) ]} ∪ nodes g)
                 ("Category", row_get row "category_id") = false).
  { intros id. etrans; [|exact Hcat]. apply matched_ext. set_solver. }
  destruct (row_get row "id") eqn:Hrow; [done|..];
    cbn [exec_stmts exec_stmt upsert_writes apply_writes map foldl
         apply_write nodes node_props rels rel_props fst snd forallb];
    rewrite Hm; done.
Qed.

(** C2, as stated, fails: the guard looks for the category in the store,
    not in the input.  With no category in the input and a [Category] node
    7 already stored, the product that names category 7 gets its
    [IN_CATEGORY] relationship. *)
Lemma product_links_stale_category :
  records stale_tables "categories" = Some [] /\
  map (fun r => (row_get r "id", row_get r "category_id"))
    <$> records stale_tables "products" = Some [(VInt 11, VInt 7)] /\
  exists g1,
    @load_graph sample_cypher stale_tables stale_graph = Some g1 /\
    ("IN_CATEGORY", ("Product", VInt 11), ("Category", VInt 7)) ∈ rels g1.
Proof.
  split; [by vm_compute|]. split; [by vm_compute|].
  assert (Hobs :
    (fun g => bool_decide
       (("IN_CATEGORY", ("Product", VInt 11), ("Category", VInt 7)) ∈ rels g))
      <$> @load_graph sample_cypher stale_tables stale_graph = Some true)
    by (vm_compute; reflexivity).
  destruct (@load_graph sample_cypher stale_tables stale_graph) as [g1|];
    [|discriminate Hobs].
  exists g1. split; [reflexivity|].
  apply (bool_decide_unpack _), Is_true_true. by injection Hobs.
Qed.

(** C2, amended.  Take a product record with a non-null [id] whose
    [category_id] matches no [Category] node already stored and no category
    of the input.  After the categories step and whatever product rows run
    before it, its write succeeds, creates or updates the [Product] node
    with the row's name and price (as a float), and leaves every
    relationship and relationship property as it was. *)
Theorem product_without_category (cy : Cypher)
    (cats pre : list (gmap string value)) (row : gmap string value)
    (g0 g1 g2 : graph) :
  load_step category_row cats g0 = Some g1 ->
  load_step product_row pre g1 = Some g2 ->
  row_get row "id" <> VNull ->
  matched (nodes g0) ("Category", row_get row "category_id") = false ->
  (forall c, c ∈ cats -> row_get c "id" <> row_get row "category_id") ->
  exists g3,
    load_step product_row (pre ++ [row]) g1 = Some g3 /\
    nodes g3 = {[ ("Product", row_get row "id") ]} ∪ nodes g2 /\
    node_props g3 !! (("Product", row_get row "id"), "name")
      = cell (row_get row "name") /\
    node_props g3 !! (("Product", row_get row "id"), "price")
      = cell (toFloat (row_get row "price")) /\
    (forall k, k.1 <> ("Product", row_get row "id") ->
       node_props g3 !! k = node_props g2 !! k) /\
    rels g3 = rels g2 /\
    rel_props g3 = rel_props g2.
Proof.
  intros Hcats Hpre Hid Hstored Hinput.
  rewrite load_step_rows in Hcats, Hpre.
  assert (Hg1 : matched (nodes g1) ("Category", row_get row "category_id") = false).
  { etrans; [|exact Hstored]. apply matched_ext.
    apply exec_stmts_nodes in Hcats as [Hsub Hsup].
    split; [|set_solver]. intros Hn.
    apply Hsup, elem_of_union in Hn as [Hn|Hn]; [done|].
    apply upserts_category_rows in Hn as (c & Hc & Heq).
    destruct (Hinput c Hc). congruence. }
  assert (Hg2 : matched (nodes g2) ("Category", row_get row "category_id") = false).
  { etrans; [|exact Hg1].
    apply (matched_preserved ["Product"] _ _ _ _ Hpre).
    - apply Forall_flat_map_rows. intros r. apply product_row_labels.
    - simpl. set_solver. }
  eexists. split.
  - rewrite load_step_rows, flat_map_app, exec_stmts_app, Hpre. simpl.
    rewrite app_nil_r. by apply product_row_unmatched.
  - simpl. repeat split.
    + unfold set_cell. rewrite lookup_partial_alter_ne by congruence.
      by rewrite lookup_partial_alter_eq.
    + unfold set_cell. by rewrite lookup_partial_alter_eq.
    + intros [n p] Hk. simpl in Hk. unfold set_cell.
      rewrite !lookup_partial_alter_ne by congruence. done.
Qed.

Lemma product_without_category_witness :
  exists g3,
    load_step (@product_row sample_cypher) [pen_row] empty_graph = Some g3 /\
    rels g3 = ∅ /\
    node_props g3 !! (("Product", row_get pen_row "id"), "name")
      = cell (row_get pen_row "name").
Proof.
  destruct (product_without_category sample_cypher [] [] pen_row
              empty_graph empty_graph empty_graph)
    as (g3 & Hrun & _ & Hname & _ & _ & Hrels & _).
  - reflexivity.
  - reflexivity.
  - by vm_compute.
  - by vm_compute.
  - intros c Hc. by apply elem_of_nil in Hc.
  - exists g3. split; [exact Hrun|]. split; [exact Hrels | exact Hname].
Defined.

(** ** Graph loader: event routing *)

Section EventRouting.
Context `{Cypher}.

Lemma by_type_single (e : gmap string value) (t : string) :
  by_type [e] t = if decide (row_get e "event_type" = VStr t) then [e] else [].
Proof. unfold by_type. rewrite filter_cons, filter_nil. done. Qed.


Lemma event_row_matched rel_type (e : gmap string value) (t : value) g :
  matched (nodes g) ("Customer", row_get e "customer_id") = true ->
  matched (nodes g) ("Product", row_get e "product_id") = true ->
  guarded cy_datetime (row_get e "ts") = Some t ->
  exec_stmts (event_row rel_type e) g =
    Some (with_edge g (rel_type, ("Customer", row_get e "customer_id"),
                                 ("Product", row_get e "product_id")) t).
Proof.
  intros Hc Hp Ht. unfold event_row.
  cbn [exec_stmts exec_stmt forallb]. rewrite Hc, Hp, Ht. done.
Qed.

End EventRouting.



(** ** Graph store: independent statements commute *)

Lemma exec_stmts_run l g : exec_stmts l g = run l (Some g).
Proof.
  unfold run. revert g. induction l as [|s l IH]; intros g; simpl; [done|].
  destruct (exec_stmt s g) as [g'|]; [apply IH|].
  clear. induction l as [|s' l IH]; simpl; done.
Qed.

Lemma run_app l1 l2 x : run (l1 ++ l2) x = run l2 (run l1 x).
Proof. apply foldl_app. Qed.

Lemma run_None l : run l None = None.
Proof. unfold run. induction l as [|s l IH]; simpl; done. Qed.

Lemma apply_writes_comm_one (a : write) (ws : list write) : forall g,
  Forall (fun b => loc a <> loc b) ws ->
  apply_writes ws (apply_write g a) = apply_write (apply_writes ws g) a.
Proof.
  induction ws as [|b ws IH]; intros g Hall; [done|].
  apply Forall_cons in Hall as [Hab Hall].
  change (apply_writes (b :: ws) ?h) with (apply_writes ws (apply_write h b)).
  rewrite apply_write_comm by done. by apply IH.
Qed.

Lemma apply_writes_comm (ws1 ws2 : list write) : forall g,
  Forall (fun a => Forall (fun b => loc a <> loc b) ws2) ws1 ->
  apply_writes ws2 (apply_writes ws1 g) = apply_writes ws1 (apply_writes ws2 g).
Proof.
  induction ws1 as [|a ws1 IH]; intros g Hall; [done|].
  apply Forall_cons in Hall as [Ha Hall].
  change (apply_writes (a :: ws1) ?h) with (apply_writes ws1 (apply_write h a)).
  rewrite IH by done. by rewrite apply_writes_comm_one.
Qed.

Lemma upsert_writes_locs n sets :
  Forall (fun w => exists p, loc w = LNode n \/ loc w = LNodeProp n p)
         (upsert_writes n sets).
Proof.
  unfold upsert_writes. constructor; [by exists ""; left|].
  apply Forall_forall. intros w Hw.
  apply list_elem_of_fmap in Hw as (pv & -> & _). exists pv.1. by right.
Qed.

Lemma link_writes_locs r sets :
  Forall (fun w => exists p, loc w = LRel r \/ loc w = LRelProp r p)
         (link_writes r sets).
Proof.
  unfold link_writes. constructor; [by exists ""; left|].
  apply Forall_forall. intros w Hw.
  apply list_elem_of_fmap in Hw as (pv & -> & _). exists pv.1. by right.
Qed.

Ltac distinct_locs :=
  apply Forall_forall; intros a Ha; apply Forall_forall; intros b Hb;
  match goal with
  | H1 : Forall _ ?l1, H2 : Forall _ ?l2, Ha : a ∈ ?l1, Hb : b ∈ ?l2 |- _ =>
      rewrite Forall_forall in H1, H2;
      destruct (H1 a Ha) as (? & [->| ->]);
      destruct (H2 b Hb) as (? & [->| ->]); congruence
  end.

Lemma nodes_link_writes r sets g :
  nodes (apply_writes (link_writes r sets) g) = nodes g.
Proof. by rewrite nodes_apply_writes, created_link_writes, union_empty_r_L. Qed.

Lemma nodes_upsert_writes n sets g :
  nodes (apply_writes (upsert_writes n sets) g) = nodes g ∪ {[ n ]}.
Proof. by rewrite nodes_apply_writes, created_upsert_writes. Qed.

Lemma exec_stmt_comm (s1 s2 : stmt) (x : option graph) :
  indep s1 s2 ->
  (x ≫= exec_stmt s1) ≫= exec_stmt s2 = (x ≫= exec_stmt s2) ≫= exec_stmt s1.
Proof.
  intros Hind. destruct x as [g|]; [cbn [mbind option_bind exec_stmt]|done].
  destruct s1 as [|n1 sets1|needs1 r1 sets1], s2 as [|n2 sets2|needs2 r2 sets2];
    cbn [exec_stmt mbind option_bind indep] in *; try done.
  - by destruct (forallb _ needs2), sets2.
  - pose proof (upsert_writes_locs n1 sets1) as H1.
    pose proof (upsert_writes_locs n2 sets2) as H2.
    f_equal. apply apply_writes_comm. distinct_locs.
  - rewrite nodes_upsert_writes, forallb_matched_stable by set_solver.
    destruct (forallb _ needs2); [|done].
    destruct sets2 as [sets2|]; [cbn [mbind option_bind exec_stmt]|done].
    pose proof (upsert_writes_locs n1 sets1) as H1.
    pose proof (link_writes_locs r2 sets2) as H2.
    f_equal. apply apply_writes_comm. distinct_locs.
  - by destruct (forallb _ needs1), sets1.
  - destruct (forallb (matched (nodes g)) needs1) eqn:Hm1.
    + destruct sets1 as [sets1|]; cbn [mbind option_bind exec_stmt].
      * rewrite nodes_upsert_writes, forallb_matched_stable, Hm1 by set_solver.
        pose proof (link_writes_locs r1 sets1) as H1.
        pose proof (upsert_writes_locs n2 sets2) as H2.
        f_equal. apply apply_writes_comm. distinct_locs.
      * by rewrite nodes_upsert_writes, forallb_matched_stable, Hm1 by set_solver.
    + cbn [mbind option_bind exec_stmt].
      by rewrite nodes_upsert_writes, forallb_matched_stable, Hm1 by set_solver.
  - destruct (forallb (matched (nodes g)) needs1) eqn:Hm1,
             (forallb (matched (nodes g)) needs2) eqn:Hm2;
      destruct sets1 as [sets1|], sets2 as [sets2|]; cbn [mbind option_bind exec_stmt];
      rewrite ?nodes_link_writes, ?Hm1, ?Hm2; try done.
    pose proof (link_writes_locs r1 sets1) as H1.
    pose proof (link_writes_locs r2 sets2) as H2.
    f_equal. apply apply_writes_comm. distinct_locs.
Qed.

Lemma run_comm_one (s : stmt) (l : list stmt) : forall x,
  (forall s2, s2 ∈ l -> indep s s2) ->
  run l (x ≫= exec_stmt s) = run l x ≫= exec_stmt s.
Proof.
  induction l as [|s2 l IH]; intros x Hind; [done|].
  change (run (s2 :: l) ?y) with (run l (y ≫= exec_stmt s2)).
  rewrite exec_stmt_comm by (apply Hind; set_solver).
  apply IH. intros s' Hs'. apply Hind. set_solver.
Qed.

Lemma run_comm (l1 l2 : list stmt) : forall x,
  indep_lists l1 l2 -> run (l1 ++ l2) x = run (l2 ++ l1) x.
Proof.
  induction l1 as [|s l1 IH]; intros x Hind.
  - by rewrite app_nil_r.
  - change (run ((s :: l1) ++ l2) x) with (run (l1 ++ l2) (x ≫= exec_stmt s)).
    rewrite IH by (intros s1 s2 ? ?; apply Hind; set_solver).
    rewrite !run_app.
    change (run (s :: l1) ?y) with (run l1 (y ≫= exec_stmt s)).
    rewrite run_comm_one; [done|].
    intros s2 Hs2. apply Hind; set_solver.
Qed.

(** Rows with different keys, whose statements are independent, can be run
    in any order. *)
Lemma run_flat_map_perm {K} (q : gmap string value -> list stmt)
    (key : gmap string value -> K) (rows rows' : list (gmap string value)) :
  Permutation rows rows' ->
  NoDup (map key rows) ->
  (forall r1 r2, r1 ∈ rows -> r2 ∈ rows -> key r1 <> key r2 ->
     indep_lists (q r1) (q r2)) ->
  forall x, run (flat_map q rows) x = run (flat_map q rows') x.
Proof.
  induction 1 as [|r l l' Hperm IH|r1 r2 l|l l' l'' Hperm1 IH1 Hperm2 IH2];
    intros Hnodup Hind x.
  - done.
  - simpl. rewrite !run_app. apply NoDup_cons in Hnodup as [_ Hnodup].
    apply IH; [done|]. intros ? ? ? ?. apply Hind; set_solver.
  - simpl. rewrite !app_assoc, !(run_app (_ ++ _)). f_equal.
    apply run_comm.
    apply NoDup_cons in Hnodup as [Hne _].
    apply Hind; [set_solver|set_solver|].
    intros Heq. apply Hne. simpl. rewrite Heq. set_solver.
  - rewrite IH1 by done. apply IH2.
    + by rewrite <- Hperm1.
    + intros ? ? ? ?. apply Hind; by rewrite Hperm1.
Qed.

(** ** Graph loader: rows with different keys are independent *)

Section RowIndependence.
Context `{Cypher}.

Ltac row_indep :=
  intros s1 s2 Hs1 Hs2; set_unfold; destruct_or?; subst; simpl;
  try done; try congruence; set_solver.

Lemma category_row_indep r1 r2 :
  upsert_key "categories" r1 <> upsert_key "categories" r2 ->
  indep_lists (category_row r1) (category_row r2).
Proof.
  unfold upsert_key, category_row. simpl. intros Hkey.
  destruct (row_get r1 "id"), (row_get r2 "id"); row_indep.
Qed.

Lemma product_row_indep r1 r2 :
  upsert_key "products" r1 <> upsert_key "products" r2 ->
  indep_lists (product_row r1) (product_row r2).
Proof.
  unfold upsert_key, product_row. simpl. intros Hkey.
  destruct (row_get r1 "id"), (row_get r2 "id"); row_indep.
Qed.

Lemma customer_row_indep r1 r2 :
  upsert_key "customers" r1 <> upsert_key "customers" r2 ->
  indep_lists (customer_row r1) (customer_row r2).
Proof.
  unfold upsert_key, customer_row. simpl. intros Hkey.
  destruct (row_get r1 "id"), (row_get r2 "id"),
           (guarded cy_date (row_get r1 "join_date")),
           (guarded cy_date (row_get r2 "join_date")); row_indep.
Qed.

Lemma order_row_indep r1 r2 :
  upsert_key "orders" r1 <> upsert_key "orders" r2 ->
  indep_lists (order_row r1) (order_row r2).
Proof.
  unfold upsert_key, order_row. simpl. intros Hkey.
  destruct (row_get r1 "id"), (row_get r2 "id"),
           (guarded cy_datetime (row_get r1 "ts")),
           (guarded cy_datetime (row_get r2 "ts")); row_indep.
Qed.

Lemma order_item_row_indep r1 r2 :
  upsert_key "order_items" r1 <> upsert_key "order_items" r2 ->
  indep_lists (order_item_row r1) (order_item_row r2).
Proof. unfold upsert_key, order_item_row. simpl. intros Hkey. row_indep. Qed.

Lemma event_row_indep rel_type r1 r2 :
  row_get r1 "event_type" = row_get r2 "event_type" ->
  upsert_key "events" r1 <> upsert_key "events" r2 ->
  indep_lists (event_row rel_type r1) (event_row rel_type r2).
Proof.
  unfold upsert_key, event_row. simpl. intros Hty Hkey. rewrite Hty in Hkey.
  row_indep.
Qed.

End RowIndependence.

(** ** Graph loader: row order *)

Lemma NoDup_map_filter {A K} (key : A -> K) (P : A -> Prop)
    `{forall x, Decision (P x)} (l : list A) :
  NoDup (map key l) -> NoDup (map key (filter P l)).
Proof.
  induction l as [|a l IH]; simpl; [done|].
  rewrite NoDup_cons. intros [Hnotin Hnodup].
  rewrite filter_cons. destruct (decide (P a)); [|by apply IH].
  simpl. apply NoDup_cons. split; [|by apply IH].
  intros Hin. apply Hnotin.
  apply list_elem_of_fmap in Hin as (b & -> & Hb).
  apply list_elem_of_fmap. exists b. split; [done|].
  by apply list_elem_of_filter in Hb as [_ Hb].
Qed.

Lemma records_insert (tables : gmap string dataframe) (name n : string)
    (df' : dataframe) :
  records (<[name := df']> tables) n =
    if decide (name = n) then Some (to_dict_records df') else records tables n.
Proof. unfold records. rewrite lookup_insert. by case_decide. Qed.

Section RowOrder.
Context `{Cypher}.

Lemma event_bucket_perm rel_type (t : string)
    (events events' : list (gmap string value)) :
  Permutation events events' ->
  NoDup (map (upsert_key "events") events) ->
  forall x,
    run (flat_map (event_row rel_type) (by_type events t)) x
    = run (flat_map (event_row rel_type) (by_type events' t)) x.
Proof.
  intros Hperm Hnodup.
  apply (run_flat_map_perm _ (upsert_key "events")).
  - unfold by_type. by rewrite Hperm.
  - by apply NoDup_map_filter.
  - intros r1 r2 Hr1 Hr2. apply event_row_indep.
    apply list_elem_of_filter in Hr1 as [Hr1 _].
    apply list_elem_of_filter in Hr2 as [Hr2 _]. congruence.
Qed.

Lemma events_plan_perm (events events' : list (gmap string value)) :
  Permutation events events' ->
  NoDup (map (upsert_key "events") events) ->
  forall x, run (events_plan events) x = run (events_plan events') x.
Proof.
  intros Hperm Hnodup x. unfold events_plan. rewrite !run_app.
  rewrite (event_bucket_perm "VIEWED" "view" events events') by done.
  rewrite (event_bucket_perm "CLICKED" "click" events events') by done.
  by rewrite (event_bucket_perm "ADDED_TO_CART" "add_to_cart" events events').
Qed.

End RowOrder.

(** C6, as stated, fails: two [view] events of one customer for one product
    are merged into one [VIEWED] relationship whose [ts] is that of the row
    that comes last.  Exchanging the two event rows changes the graph. *)
Lemma event_order_matters :
  records (<["events" := events_exchanged]> viewed_twice) "events"
    = reverse <$> records viewed_twice "events" /\
  exists ga gb,
    @load_graph sample_cypher viewed_twice empty_graph = Some ga /\
    @load_graph sample_cypher (<["events" := events_exchanged]> viewed_twice)
      empty_graph = Some gb /\
    rel_props ga !! (("VIEWED", ("Customer", VInt 100), ("Product", VInt 10)), "ts")
      = Some (VDateTime "2023-03-07T10:00:00Z") /\
    rel_props gb !! (("VIEWED", ("Customer", VInt 100), ("Product", VInt 10)), "ts")
      = Some (VDateTime "2023-03-06T10:00:00Z") /\
    ga <> gb.
Proof.
  split; [apply (bool_decide_unpack _); vm_compute; exact I|].
  assert (Ha :
    (fun g => rel_props g
       !! (("VIEWED", ("Customer", VInt 100), ("Product", VInt 10)), "ts"))
      <$> @load_graph sample_cypher viewed_twice empty_graph
    = Some (Some (VDateTime "2023-03-07T10:00:00Z")))
    by (vm_compute; reflexivity).
  assert (Hb :
    (fun g => rel_props g
       !! (("VIEWED", ("Customer", VInt 100), ("Product", VInt 10)), "ts"))
      <$> @load_graph sample_cypher
            (<["events" := events_exchanged]> viewed_twice) empty_graph
    = Some (Some (VDateTime "2023-03-06T10:00:00Z")))
    by (vm_compute; reflexivity).
  destruct (@load_graph sample_cypher viewed_twice empty_graph) as [ga|];
    [|discriminate Ha].
  destruct (@load_graph sample_cypher
              (<["events" := events_exchanged]> viewed_twice) empty_graph)
    as [gb|]; [|discriminate Hb].
  simpl in Ha, Hb. injection Ha as Ha. injection Hb as Hb.
  exists ga, gb. repeat split; try done.
  intros ->. rewrite Ha in Hb. discriminate Hb.
Qed.

(** C6, amended.  Permuting the rows of one relation leaves the loaded graph
    the same when no two rows of that relation share their upsert key: the
    [id] for categories, products, customers and orders, the pair
    [(order_id, product_id)] for order items, and the triple
    [(customer_id, product_id, event_type)] for events. *)
Theorem load_graph_row_order (cy : Cypher) (tables : gmap string dataframe)
    (name : string) (df df' : dataframe) (g : graph) :
  tables !! name = Some df ->
  Permutation (to_dict_records df) (to_dict_records df') ->
  NoDup (map (upsert_key name) (to_dict_records df)) ->
  load_graph (<[name := df']> tables) g = load_graph tables g.
Proof.
  intros Hdf Hperm Hnodup.
  assert (Hrec : records tables name = Some (to_dict_records df))
    by (unfold records; by rewrite Hdf).
  rewrite !load_graph_plan. unfold load_plan. rewrite !records_insert.
  destruct (decide (name = "categories")) as [->|Hn1].
  { rewrite Hrec. simpl.
    destruct (records tables "products"), (records tables "customers"),
      (records tables "orders"), (records tables "order_items"),
      (records tables "events"); simpl; try done.
    rewrite !exec_stmts_run, !run_app.
    by rewrite (run_flat_map_perm category_row (upsert_key "categories")
                  _ _ Hperm Hnodup (fun r1 r2 _ _ => category_row_indep r1 r2)). }
  destruct (decide (name = "products")) as [->|Hn2].
  { rewrite Hrec. simpl.
    destruct (records tables "categories"), (records tables "customers"),
      (records tables "orders"), (records tables "order_items"),
      (records tables "events"); simpl; try done.
    rewrite !exec_stmts_run, !run_app.
    by rewrite (run_flat_map_perm product_row (upsert_key "products")
                  _ _ Hperm Hnodup (fun r1 r2 _ _ => product_row_indep r1 r2)). }
  destruct (decide (name = "customers")) as [->|Hn3].
  { rewrite Hrec. simpl.
    destruct (records tables "categories"), (records tables "products"),
      (records tables "orders"), (records tables "order_items"),
      (records tables "events"); simpl; try done.
    rewrite !exec_stmts_run, !run_app.
    by rewrite (run_flat_map_perm customer_row (upsert_key "customers")
                  _ _ Hperm Hnodup (fun r1 r2 _ _ => customer_row_indep r1 r2)). }
  destruct (decide (name = "orders")) as [->|Hn4].
  { rewrite Hrec. simpl.
    destruct (records tables "categories"), (records tables "products"),
      (records tables "customers"), (records tables "order_items"),
      (records tables "events"); simpl; try done.
    rewrite !exec_stmts_run, !run_app.
    by rewrite (run_flat_map_perm order_row (upsert_key "orders")
                  _ _ Hperm Hnodup (fun r1 r2 _ _ => order_row_indep r1 r2)). }
  destruct (decide (name = "order_items")) as [->|Hn5].
  { rewrite Hrec. simpl.
    destruct (records tables "categories"), (records tables "products"),
      (records tables "customers"), (records tables "orders"),
      (records tables "events"); simpl; try done.
    rewrite !exec_stmts_run, !run_app.
    by rewrite (run_flat_map_perm order_item_row (upsert_key "order_items")
                  _ _ Hperm Hnodup
                  (fun r1 r2 _ _ => order_item_row_indep r1 r2)). }
  destruct (decide (name = "events")) as [->|Hn6].
  { rewrite Hrec. simpl.
    destruct (records tables "categories"), (records tables "products"),
      (records tables "customers"), (records tables "orders"),
      (records tables "order_items"); simpl; try done.
    rewrite !exec_stmts_run, !run_app.
    by rewrite (events_plan_perm _ _ Hperm Hnodup). }
  done.
Qed.

Lemma load_graph_row_order_witness :
  Permutation (to_dict_records two_products)
              (to_dict_records two_products_exchanged) /\
  NoDup (map (upsert_key "products") (to_dict_records two_products)) /\
  @load_graph sample_cypher
    (<["products" := two_products_exchanged]>
       (<["products" := two_products]> sample_tables)) empty_graph
  = @load_graph sample_cypher (<["products" := two_products]> sample_tables)
      empty_graph.
Proof.
  assert (Hperm : Permutation (to_dict_records two_products)
                              (to_dict_records two_products_exchanged)).
  { assert (Hrev : to_dict_records two_products_exchanged
                   = reverse (to_dict_records two_products))
      by (apply (bool_decide_unpack _); vm_compute; exact I).
    rewrite Hrev. symmetry. apply reverse_Permutation. }
  assert (Hnodup : NoDup (map (upsert_key "products")
                            (to_dict_records two_products)))
    by (apply (bool_decide_unpack _); vm_compute; exact I).
  split; [exact Hperm|]. split; [exact Hnodup|].
  exact (load_graph_row_order sample_cypher _ "products" two_products
           two_products_exchanged empty_graph
           (lookup_insert_eq _ _ _) Hperm Hnodup).
Defined.

(* ------------------------------------------------------------------ *)
(** * Further properties of the code *)
(* ------------------------------------------------------------------ *)

(** ** Batcher: any size *)

Lemma chunk_loop_nonempty {A} (size : Z) (xs : list A) : forall buf,
  Forall (fun b => b <> []) (chunk_loop size buf xs).
Proof.
  induction xs as [|x xs IH]; intros buf; simpl.
  - destruct buf; by repeat constructor.
  - destruct (_ >=? _); [|apply IH].
    constructor; [|apply IH]. by destruct buf.
Qed.

Lemma chunk_loop_bounded {A} (size : Z) (xs : list A) : forall buf,
  Z.of_nat (length buf) < Z.max 1 size ->
  Forall (fun b => Z.of_nat (length b) <= Z.max 1 size) (chunk_loop size buf xs).
Proof.
  induction xs as [|x xs IH]; intros buf Hbuf; simpl.
  - destruct buf; repeat constructor. lia.
  - rewrite length_app. simpl.
    destruct (Z.geb_spec (Z.of_nat (length buf + 1)) size) as [Hge|Hlt].
    + constructor; [rewrite length_app; simpl; lia|]. apply IH. simpl. lia.
    + apply IH. rewrite length_app. simpl. lia.
Qed.

Lemma chunk_loop_singletons {A} (size : Z) (xs : list A) :
  size <= 1 -> chunk_loop size [] xs = map (fun x => [x]) xs.
Proof.
  intros Hsize. induction xs as [|x xs IH]; simpl; [done|].
  destruct (Z.geb_spec (Z.of_nat 1) size) as [_|Hlt]; [|lia].
  by rewrite IH.
Qed.

(** X1.  Whatever the size, also zero or negative, [chunk] loses and
    reorders nothing, never yields an empty batch, and yields no batch
    longer than [max 1 size]; with a size of at most one every element is a
    batch of its own. *)
Theorem chunk_any_size (A : Type) (xs : list A) (size : Z) :
  concat (chunk xs size) = xs /\
  Forall (fun b => b <> []) (chunk xs size) /\
  Forall (fun b => Z.of_nat (length b) <= Z.max 1 size) (chunk xs size) /\
  (size <= 1 -> chunk xs size = map (fun x => [x]) xs).
Proof.
  split; [apply chunk_concat|].
  split; [apply chunk_loop_nonempty|].
  split; [apply chunk_loop_bounded; simpl; lia|].
  apply chunk_loop_singletons.
Qed.

(** ** Graph loader: the batch size is a performance knob *)

(** X2.  Whatever the batch size, running a query batch by batch leaves the
    store in the state, or raises as, running it once on all the rows. *)
Theorem batch_size_invisible (q : gmap string value -> list stmt)
    (rows : list (gmap string value)) (size : Z) (g : graph) :
  run_batches q (chunk rows size) g = run_query q rows g /\
  load_step q rows g = run_query q rows g.
Proof.
  split.
  - by rewrite run_batches_concat, chunk_concat.
  - unfold load_step. by rewrite run_batches_concat, chunk_concat.
Qed.

(** ** Readiness gate: any probe *)

Section ReadinessAnyProbe.
Context {E : Type} (hz : Z) (probe : nat -> probe_run E) (timeout start : Z).

Lemma wait_loop_ends n : forall k now,
  timeout * hz < (now - start) + Z.of_nat n * hz ->
  exists r,
    wait_loop hz probe timeout start (S n) k now = Some r /\
    (k <= attempt_of r <= k + n)%nat.
Proof.
  induction n as [|n IH]; intros k now Hfar;
    destruct (pr_error (probe k)) as [e|] eqn:Hk;
    try (rewrite (wait_loop_failure _ _ _ _ _ _ _ _ Hk));
    try (rewrite (wait_loop_success _ _ _ _ _ _ _ Hk));
    try (eexists; split; [reflexivity|simpl; lia]);
    destruct (Z.gtb_spec (now + Z.of_nat (pr_cost (probe k)) - start)
                (timeout * hz)) as [Hgt|Hle];
    try (eexists; split; [reflexivity|simpl; lia]).
  - lia.
  - destruct (IH (S k) (now + Z.of_nat (pr_cost (probe k)) + 1 * hz))
      as (r & Hr & Hk'); [lia|].
    exists r. split; [done|lia].
Qed.

Lemma wait_loop_ready_at (err : nat -> E) (k : nat) :
  (forall i, (i < k)%nat -> pr_error (probe i) = Some (err i)) ->
  (forall i, (i < k)%nat ->
     probe_ticks probe i + Z.of_nat i * (1 * hz) <= timeout * hz) ->
  pr_error (probe k) = None ->
  forall d j, (j + d = k)%nat ->
    wait_loop hz probe timeout start (S d) j
      (start + (probe_ticks probe j - Z.of_nat (pr_cost (probe j)))
             + Z.of_nat j * (1 * hz))
    = Some (Ready k (start + probe_ticks probe k + Z.of_nat k * (1 * hz))).
Proof.
  intros Hfail Hin Hok.
  induction d as [|d IH]; intros j Hj.
  - replace j with k by lia. rewrite (wait_loop_success _ _ _ _ _ _ _ Hok).
    do 2 f_equal. lia.
  - rewrite (wait_loop_failure _ _ _ _ _ _ _ _ (Hfail j ltac:(lia))).
    pose proof (Hin j ltac:(lia)) as Hj'.
    destruct (Z.gtb_spec
                (start + (probe_ticks probe j - Z.of_nat (pr_cost (probe j)))
                 + Z.of_nat j * (1 * hz) + Z.of_nat (pr_cost (probe j)) - start)
                (timeout * hz)) as [Hgt|Hle]; [lia|].
    rewrite <- (IH (S j)) by lia. f_equal. cbn [probe_ticks]. lia.
Qed.

End ReadinessAnyProbe.

(** X3.  Whatever the probe does, a gate ends: it returns or raises within
    [timeout + 2] probe runs (one run when the timeout is negative). *)
Theorem await_ready_terminates (E : Type) (hz : Z)
    (probe : nat -> probe_run E) (timeout start : Z) :
  0 < hz ->
  exists r,
    (forall fuel, (S (Z.to_nat (timeout + 1)) <= fuel)%nat ->
       await_ready hz probe timeout fuel start = Some r) /\
    (attempt_of r <= Z.to_nat (timeout + 1))%nat.
Proof.
  intros Hhz.
  destruct (wait_loop_ends hz probe timeout start
              (Z.to_nat (timeout + 1)) 0%nat start) as (r & Hr & Hk); [nia|].
  exists r. split; [|lia].
  intros fuel Hfuel. unfold await_ready.
  by apply (wait_loop_fuel hz probe timeout start _ _ _ _ _ Hfuel).
Qed.

Lemma await_ready_terminates_witness :
  0 < 10 /\
  exists r,
    await_ready 10 failing_probe 120 122 0 = Some r /\
    (attempt_of r <= 121)%nat.
Proof.
  split; [lia|].
  destruct (await_ready_terminates string 10 failing_probe 120 0 ltac:(lia))
    as (r & Hrun & Hk).
  exists r. split; [apply Hrun; simpl; lia | exact Hk].
Defined.

(** X4.  When the probe fails [k] times, each failure seen within the
    timeout, and then succeeds, the gate returns at that run, having slept
    one second after each failure and not after the success. *)
Theorem await_ready_returns_when_ready (E : Type) (hz : Z)
    (probe : nat -> probe_run E) (err : nat -> E) (timeout start : Z)
    (k : nat) :
  (forall i, (i < k)%nat -> pr_error (probe i) = Some (err i)) ->
  (forall i, (i < k)%nat ->
     probe_ticks probe i + Z.of_nat i * (1 * hz) <= timeout * hz) ->
  pr_error (probe k) = None ->
  forall fuel, (k < fuel)%nat ->
    await_ready hz probe timeout fuel start
      = Some (Ready k (start + probe_ticks probe k + Z.of_nat k * (1 * hz))).
Proof.
  intros Hfail Hin Hok fuel Hfuel. unfold await_ready.
  apply (wait_loop_fuel hz probe timeout start (S k)); [lia|].
  rewrite <- (wait_loop_ready_at hz probe timeout start err k Hfail Hin Hok k 0)
    by lia.
  f_equal. simpl. lia.
Qed.

Lemma await_ready_returns_when_ready_witness :
  await_ready 10 third_time_lucky 120 3 1000 = Some (Ready 2 1029).
Proof.
  apply (await_ready_returns_when_ready string 10 third_time_lucky
           (fun _ => "not yet") 120 1000 2).
  - intros i Hi. destruct i as [|[|i]]; [done|done|lia].
  - intros i Hi. destruct i as [|[|i]]; [simpl; lia|simpl; lia|lia].
  - done.
  - lia.
Defined.

(** ** Normaliser: white space and field widths *)









Lemma length_append (s1 s2 : string) :
  String.length (s1 ++ s2)%string = (String.length s1 + String.length s2)%nat.
Proof. induction s1 as [|a s1 IH]; simpl; [done|]. by rewrite IH. Qed.

Lemma all_digits_append (s1 s2 : string) :
  all_digits (s1 ++ s2)%string = all_digits s1 && all_digits s2.
Proof.
  induction s1 as [|a s1 IH]; simpl; [done|]. by rewrite IH, andb_assoc.
Qed.

Lemma zeros_shape (k : nat) :
  String.length (zeros k) = k /\ all_digits (zeros k) = true.
Proof. induction k as [|k [IH1 IH2]]; simpl; [done|]. by rewrite IH1, IH2. Qed.

Lemma is_digit_digit_char (d : nat) : (d < 10)%nat -> is_digit (digit_char d) = true.
Proof.
  intros Hd. unfold is_digit, digit_char.
  rewrite nat_ascii_embedding by lia.
  apply andb_true_iff. split; apply Nat.leb_le; lia.
Qed.

Lemma digits_go_shape (fuel : nat) : forall (n : nat) (acc : string) (w : nat),
  (n < fuel)%nat -> (1 <= w)%nat -> (n < 10 ^ w)%nat ->
  (String.length acc + 1 <= String.length (digits_go fuel n acc)
     <= String.length acc + w)%nat /\
  (all_digits acc = true -> all_digits (digits_go fuel n acc) = true).
Proof.
  induction fuel as [|fuel IH]; intros n acc w Hfuel Hw Hn; [lia|].
  cbn [digits_go].
  assert (Hd : is_digit (digit_char (n mod 10)) = true).
  { apply is_digit_digit_char. apply Nat.mod_upper_bound. lia. }
  destruct (Nat.eqb_spec (n / 10) 0) as [Hzero|Hmore].
  - cbn [String.length all_digits]. split; [lia|]. intros ->. by rewrite Hd.
  - assert (Hten : (10 <= n)%nat).
    { destruct (Nat.lt_ge_cases n 10) as [Hlt|]; [|done].
      by apply Nat.div_small in Hlt. }
    destruct w as [|w]; [lia|].
    assert (Hw' : (1 <= w)%nat).
    { destruct w; [change (10 ^ 1)%nat with 10%nat in Hn; lia | lia]. }
    assert (Hdiv : (n / 10 < 10 ^ w)%nat).
    { apply Nat.Div0.div_lt_upper_bound.
      rewrite Nat.pow_succ_r' in Hn. lia. }
    assert (Hlt : (n / 10 < fuel)%nat).
    { pose proof (Nat.div_lt n 10). lia. }
    destruct (IH (n / 10)%nat (String (digit_char (n mod 10)) acc) w Hlt Hw' Hdiv)
      as [Hlen Hdig].
    cbn [String.length] in Hlen. split; [lia|].
    intros Hacc. apply Hdig. cbn [all_digits]. by rewrite Hd, Hacc.
Qed.

(** A number that fits the width is printed on exactly that many digits. *)
Lemma pad_shape (w n : nat) :
  (1 <= w)%nat -> (n < 10 ^ w)%nat ->
  String.length (pad w n) = w /\ all_digits (pad w n) = true.
Proof.
  intros Hw Hn. unfold pad, nat_to_string.
  destruct (digits_go_shape (S n) n "" w) as [Hlen Hdig]; [lia|done|done|].
  cbn [String.length] in Hlen. destruct (zeros_shape (w - String.length (digits_go (S n) n ""))) as [Hz1 Hz2].
  rewrite length_append, all_digits_append, Hz1, Hz2, Hdig by done.
  split; [lia|done].
Qed.

(** X6.  Canonical shape.  For a timestamp whose year has at most four
    digits and whose other fields have at most two, the date text is four
    digits, a dash, two digits, a dash and two digits (ten characters), and
    the timestamp text is that date followed by [T], the time as three
    two-digit fields separated by colons, and [Z] (twenty characters). *)
Theorem strftime_shape (t : timestamp) :
  (ts_year t < 10 ^ 4)%nat ->
  (ts_month t < 10 ^ 2)%nat -> (ts_day t < 10 ^ 2)%nat ->
  (ts_hour t < 10 ^ 2)%nat -> (ts_minute t < 10 ^ 2)%nat ->
  (ts_second t < 10 ^ 2)%nat ->
  exists y m d h mi s : string,
    strftime_date t = (y ++ "-" ++ m ++ "-" ++ d)%string /\
    strftime_datetime t
      = (strftime_date t ++ "T" ++ h ++ ":" ++ mi ++ ":" ++ s ++ "Z")%string /\
    String.length y = 4%nat /\ all_digits y = true /\
    Forall (fun f => String.length f = 2%nat /\ all_digits f = true)
           [m; d; h; mi; s] /\
    String.length (strftime_date t) = 10%nat /\
    String.length (strftime_datetime t) = 20%nat.
Proof.
  intros Hy Hm Hd Hh Hmi Hs.
  destruct (pad_shape 4 (ts_year t)) as [Ly Dy]; [lia|done|].
  destruct (pad_shape 2 (ts_month t)) as [Lm Dm]; [lia|done|].
  destruct (pad_shape 2 (ts_day t)) as [Ld Dd]; [lia|done|].
  destruct (pad_shape 2 (ts_hour t)) as [Lh Dh]; [lia|done|].
  destruct (pad_shape 2 (ts_minute t)) as [Lmi Dmi]; [lia|done|].
  destruct (pad_shape 2 (ts_second t)) as [Ls Ds]; [lia|done|].
  exists (pad 4 (ts_year t)), (pad 2 (ts_month t)), (pad 2 (ts_day t)),
         (pad 2 (ts_hour t)), (pad 2 (ts_minute t)), (pad 2 (ts_second t)).
  assert (Hdate : String.length (strftime_date t) = 10%nat).
  { unfold strftime_date. rewrite !length_append, Ly, Lm, Ld. done. }
  repeat split; try done.
  - by repeat constructor.
  - unfold strftime_datetime. rewrite !length_append, Hdate, Lh, Lmi, Ls. done.
Qed.

Lemma strftime_shape_witness :
  String.length (strftime_date (Timestamp 2023 3 5 14 30 0)) = 10%nat /\
  String.length (strftime_datetime (Timestamp 2023 3 5 14 30 0)) = 20%nat.
Proof.
  destruct (strftime_shape (Timestamp 2023 3 5 14 30 0))
    as (y & m & d & h & mi & s & _ & _ & _ & _ & _ & Hdate & Htime);
    try (cbn [ts_year ts_month ts_day ts_hour ts_minute ts_second];
         apply Nat.ltb_lt; vm_compute; reflexivity).
  split; [exact Hdate | exact Htime].
Defined.

(** ** Extractor: what is returned, what is raised, what stays open *)

Lemma read_relations_frames (src : source_store)
    (frames : string -> dataframe) (names : list string) :
  forall tables st,
  (open_connections st = 0%nat ->
     forall tbl, head names = Some tbl -> src_connect src tbl = None) ->
  (forall tbl, tbl ∈ names -> src_query src tbl = inl (frames tbl)) ->
  exists st',
    read_relations src names tables st
      = (st', Ret (foldl (fun m t => <[t := frames t]> m) tables names)) /\
    engines st' = engines st.
Proof.
  induction names as [|tbl rest IH]; intros tables st Hconn Hq; simpl.
  - by exists st.
  - unfold read_sql_query. rewrite (Hq tbl) by set_solver.
    destruct (open_connections st) eqn:Hopen.
    + rewrite (Hconn eq_refl tbl eq_refl).
      edestruct (IH (<[tbl := frames tbl]> tables)
                   {| engines := engines st; open_connections := 1 |})
        as (st' & -> & Heng); [done|set_solver|].
      by exists st'.
    + edestruct (IH (<[tbl := frames tbl]> tables) st)
        as (st' & -> & Heng); [intros Hzero; congruence|set_solver|].
      by exists st'.
Qed.

Lemma foldl_insert_lookup (frames : string -> dataframe) (names : list string) :
  forall (tables : gmap string dataframe) (t : string),
  foldl (fun m t => <[t := frames t]> m) tables names !! t
    = if decide (t ∈ names) then Some (frames t) else tables !! t.
Proof.
  induction names as [|n names IH]; intros tables t; simpl.
  - done.
  - rewrite IH. destruct (decide (t ∈ names)) as [Hin|Hnotin].
    + by rewrite decide_True by set_solver.
    + destruct (decide (t = n)) as [->|Hne].
      * by rewrite decide_True, lookup_insert_eq by set_solver.
      * by rewrite decide_False, lookup_insert_ne by set_solver.
Qed.

(** X7.  When the store can be reached and answers the six queries,
    [extract_postgres] returns exactly the six relations, each bound to the
    frame its query returned, after making one engine and leaving no
    connection open. *)
Theorem extract_postgres_returns_relations (src : source_store)
    (frames : string -> dataframe) (st : engine_state) :
  src_connect src "customers" = None ->
  (forall tbl, tbl ∈ RELATIONS -> src_query src tbl = inl (frames tbl)) ->
  exists out,
    extract_postgres src st
      = ({| engines := S (engines st); open_connections := 0 |}, Ret out) /\
    (forall tbl, out !! tbl
                 = if decide (tbl ∈ RELATIONS) then Some (frames tbl) else None).
Proof.
  intros Hconn Hq. unfold extract_postgres.
  destruct (read_relations_frames src frames RELATIONS ∅ (create_engine st))
    as (st' & -> & Heng); [|done|].
  { intros _ tbl Htbl. by simplify_eq/=. }
  eexists. split; [unfold dispose; by rewrite Heng|].
  intros tbl. by rewrite foldl_insert_lookup, lookup_empty.
Qed.

Lemma extract_postgres_returns_relations_witness :
  exists out,
    extract_postgres empty_store {| engines := 0; open_connections := 0 |}
      = ({| engines := 1; open_connections := 0 |}, Ret out) /\
    out !! "orders" = Some {| df_rows := 0; df_cols := ∅ |} /\
    out !! "sessions" = None.
Proof.
  destruct (extract_postgres_returns_relations empty_store
              (fun _ => {| df_rows := 0; df_cols := ∅ |})
              {| engines := 0; open_connections := 0 |} eq_refl
              (fun _ _ => eq_refl)) as (out & Hrun & Hout).
  exists out. split; [exact Hrun|].
  split; [by rewrite Hout | by rewrite Hout].
Defined.

Lemma read_relations_state (src : source_store) (names : list string) :
  forall tables st,
  engines (read_relations src names tables st).1 = engines st /\
  (open_connections st <= 1 ->
   open_connections (read_relations src names tables st).1 <= 1)%nat.
Proof.
  induction names as [|tbl rest IH]; intros tables st; simpl; [done|].
  unfold read_sql_query.
  destruct (open_connections st) as [|n] eqn:Hopen.
  - destruct (src_connect src tbl); [simpl; split; [done|lia]|].
    destruct (src_query src tbl) as [df|msg]; [|simpl; split; [done|lia]].
    destruct (IH (<[tbl := df]> tables)
                {| engines := engines st; open_connections := 1 |}) as [? Hle].
    split; [done|]. intros _. by apply Hle.
  - destruct (src_query src tbl) as [df|msg]; [|simpl; split; [done|lia]].
    destruct (IH (<[tbl := df]> tables) st) as [? Hle].
    split; [done|]. rewrite Hopen in Hle. done.
Qed.

(** X8.  On every outcome [extract_postgres] makes exactly one engine and
    holds at most one connection; when it returns, none is left open. *)
Theorem extract_postgres_accounting (src : source_store) (st : engine_state) :
  engines (extract_postgres src st).1 = S (engines st) /\
  (open_connections st <= 1 ->
   open_connections (extract_postgres src st).1 <= 1)%nat /\
  (forall out, (extract_postgres src st).2 = Ret out ->
     open_connections (extract_postgres src st).1 = 0%nat).
Proof.
  unfold extract_postgres.
  destruct (read_relations_state src RELATIONS ∅ (create_engine st)) as [Heng Hle].
  destruct (read_relations src RELATIONS ∅ (create_engine st)) as [st2 [out|e]];
    simpl in *; repeat split; try done; lia.
Qed.

Lemma read_relations_failure (src : source_store) (tbl msg : string)
    (post : list string) (pre : list string) :
  forall tables st,
  (open_connections st <= 1)%nat ->
  (open_connections st = 0%nat ->
     forall t, head (pre ++ tbl :: post) = Some t -> src_connect src t = None) ->
  (forall t, t ∈ pre -> exists df, src_query src t = inl df) ->
  src_query src tbl = inr msg ->
  read_relations src (pre ++ tbl :: post) tables st
    = ({| engines := engines st; open_connections := 1 |},
       Raise (Exception msg)).
Proof.
  induction pre as [|t pre IH]; intros tables st Hle Hconn Hpre Hfail; simpl.
  - unfold read_sql_query. rewrite Hfail.
    destruct (open_connections st) as [|n] eqn:Hopen.
    + by rewrite (Hconn eq_refl tbl eq_refl).
    + destruct st as [e o]. simpl in *. do 2 f_equal. f_equal. lia.
  - unfold read_sql_query.
    destruct (Hpre t) as [df Hdf]; [set_solver|]. rewrite Hdf.
    destruct (open_connections st) as [|n] eqn:Hopen.
    + rewrite (Hconn eq_refl t eq_refl).
      rewrite IH; [done|simpl; lia|simpl; discriminate| |done].
      intros t0 Ht0. apply Hpre. set_solver.
    + rewrite IH; [done|lia|intros Hzero; congruence| |done].
      intros t0 Ht0. apply Hpre. set_solver.
Qed.

(** X9.  A query error stops the extraction at the first relation, in the
    fixed order, whose read fails: that error is what the caller gets, and
    the connection the reads shared is still open then. *)
Theorem extract_postgres_first_failure (src : source_store)
    (st : engine_state) (pre post : list string) (tbl msg : string) :
  RELATIONS = pre ++ tbl :: post ->
  open_connections st = 0%nat ->
  src_connect src "customers" = None ->
  (forall t, t ∈ pre -> exists df, src_query src t = inl df) ->
  src_query src tbl = inr msg ->
  extract_postgres src st
    = ({| engines := S (engines st); open_connections := 1 |},
       Raise (Exception msg)).
Proof.
  intros Hsplit Hopen Hconn Hpre Hfail. unfold extract_postgres.
  rewrite Hsplit.
  rewrite (read_relations_failure src tbl msg post pre); try done.
  - simpl. lia.
  - intros _ t Ht. rewrite <- Hsplit in Ht. by simplify_eq/=.
Qed.

Lemma extract_postgres_first_failure_witness :
  extract_postgres store_without_orders {| engines := 4; open_connections := 0 |}
    = ({| engines := 5; open_connections := 1 |},
       Raise (Exception "relation orders does not exist")).
Proof.
  apply (extract_postgres_first_failure store_without_orders
           {| engines := 4; open_connections := 0 |}
           ["customers"; "categories"; "products"]
           ["order_items"; "events"] "orders").
  - reflexivity.
  - reflexivity.
  - reflexivity.
  - intros t Ht. exists {| df_rows := 0; df_cols := ∅ |}.
    simpl. rewrite decide_False; [done|]. set_solver.
  - reflexivity.
Defined.

(** X10.  When the store cannot be reached, the first read raises the
    connection error and nothing is left open. *)
Theorem extract_postgres_unreachable (src : source_store) (st : engine_state)
    (msg : string) :
  open_connections st = 0%nat ->
  src_connect src "customers" = Some msg ->
  extract_postgres src st
    = ({| engines := S (engines st); open_connections := 0 |},
       Raise (Exception msg)).
Proof.
  intros Hopen Hconn. unfold extract_postgres. simpl.
  unfold read_sql_query. simpl. rewrite Hopen, Hconn. simpl.
  unfold create_engine. by rewrite Hopen.
Qed.

Lemma extract_postgres_unreachable_witness :
  extract_postgres unreachable_store {| engines := 0; open_connections := 0 |}
    = ({| engines := 1; open_connections := 0 |},
       Raise (Exception "connection refused")).
Proof.
  exact (extract_postgres_unreachable unreachable_store
           {| engines := 0; open_connections := 0 |} "connection refused"
           eq_refl eq_refl).
Defined.

(** ** Schema file: the statements that are run *)










(** ** Graph loader: what a load adds *)

Lemma rels_apply_writes (ws : list write) : forall g,
  rels g ⊆ rels (apply_writes ws g).
Proof.
  induction ws as [|w ws IH]; intros g; [done|].
  change (apply_writes (w :: ws) g) with (apply_writes ws (apply_write g w)).
  etrans; [|apply IH]. destruct w; simpl; set_solver.
Qed.

Lemma trace_created_eq l : forall N ws,
  trace l N = Some ws -> created ws = upserts l /\ SFail ∉ l.
Proof.
  induction l as [|s l IH]; intros N ws Htrace.
  - simplify_eq/=. split; [done|set_solver].
  - rewrite upserts_cons.
    destruct s as [|n sets|needs r sets]; cbn [trace stmt_upserts] in *;
      [done| |].
    + destruct (trace l _) as [ws'|] eqn:Hl; simplify_eq.
      rewrite created_app, created_upsert_writes.
      apply IH in Hl as [-> Hfail]. split; [done|]. set_solver.
    + destruct (forallb _ needs).
      * destruct sets as [sets|], (trace l N) as [ws'|] eqn:Hl; simplify_eq.
        rewrite created_app, created_link_writes.
        apply IH in Hl as [-> Hfail]. split; [set_solver|]. set_solver.
      * apply IH in Htrace as [-> Hfail]. split; [set_solver|]. set_solver.
Qed.

Lemma upserts_in_nil l : upserts_in [] l -> upserts l = ∅.
Proof.
  intros Hin. apply set_eq. intros n. split; [|set_solver].
  intros Hn. apply (upserts_in_elem [] l n Hin) in Hn. set_solver.
Qed.

Section LoaderNodes.
Context `{Cypher}.

Lemma upserts_rows (q : gmap string value -> list stmt) (label : string)
    (rows : list (gmap string value)) :
  (forall r, SFail ∉ q r -> upserts (q r) = {[ (label, row_get r "id") ]}) ->
  SFail ∉ flat_map q rows ->
  upserts (flat_map q rows) = node_ids label rows.
Proof.
  intros Hrow. induction rows as [|r rows IH]; [done|].
  cbn [flat_map]. rewrite elem_of_app. intros Hok.
  rewrite upserts_app, Hrow, IH by tauto.
  unfold node_ids. by rewrite map_cons, list_to_set_cons.
Qed.

Ltac one_row :=
  intros Hok;
  first [ by (exfalso; apply Hok; left)
        | unfold upserts; simpl;
          by rewrite ?union_empty_r_L, ?union_empty_l_L ].

Lemma upserts_categories rows :
  SFail ∉ flat_map category_row rows ->
  upserts (flat_map category_row rows) = node_ids "Category" rows.
Proof.
  apply upserts_rows. intros r. unfold category_row.
  destruct (row_get r "id"); one_row.
Qed.

Lemma upserts_products rows :
  SFail ∉ flat_map product_row rows ->
  upserts (flat_map product_row rows) = node_ids "Product" rows.
Proof.
  apply upserts_rows. intros r. unfold product_row.
  destruct (row_get r "id"); one_row.
Qed.

Lemma upserts_customers rows :
  SFail ∉ flat_map customer_row rows ->
  upserts (flat_map customer_row rows) = node_ids "Customer" rows.
Proof.
  apply upserts_rows. intros r. unfold customer_row.
  destruct (row_get r "id"), (guarded cy_date (row_get r "join_date"));
    one_row.
Qed.

Lemma upserts_orders rows :
  SFail ∉ flat_map order_row rows ->
  upserts (flat_map order_row rows) = node_ids "Order" rows.
Proof.
  apply upserts_rows. intros r. unfold order_row.
  destruct (row_get r "id"), (guarded cy_datetime (row_get r "ts"));
    one_row.
Qed.

End LoaderNodes.

(** X13.  A load never removes a node or a relationship. *)
Theorem load_graph_never_deletes (cy : Cypher)
    (tables : gmap string dataframe) (g g' : graph) :
  load_graph tables g = Some g' ->
  nodes g ⊆ nodes g' /\ rels g ⊆ rels g'.
Proof.
  rewrite load_graph_plan. intros Hload.
  destruct (load_plan tables) as [l|]; simplify_eq/=.
  split; [by apply exec_stmts_nodes in Hload as [? _]|].
  rewrite exec_trace in Hload.
  destruct (trace l (nodes g)) as [ws|]; simplify_eq/=.
  apply rels_apply_writes.
Qed.

Lemma load_graph_never_deletes_witness :
  exists g',
    @load_graph sample_cypher sample_tables stale_graph = Some g' /\
    nodes stale_graph ⊆ nodes g'.
Proof.
  assert (Hsome : is_Some (@load_graph sample_cypher sample_tables stale_graph))
    by (apply (bool_decide_unpack _); vm_compute; exact I).
  destruct Hsome as [g' Hload]. exists g'. split; [exact Hload|].
  exact (proj1 (load_graph_never_deletes sample_cypher sample_tables
                  stale_graph g' Hload)).
Defined.

(** X14.  After a load the nodes are those that were stored, and one node
    for each distinct [id] of the categories, products, customers and
    orders of the input: no row is lost and no [id] gets two nodes. *)
Theorem load_graph_nodes (cy : Cypher) (tables : gmap string dataframe)
    (g g' : graph) :
  load_graph tables g = Some g' ->
  exists cats prods custs orders,
    records tables "categories" = Some cats /\
    records tables "products" = Some prods /\
    records tables "customers" = Some custs /\
    records tables "orders" = Some orders /\
    nodes g' = nodes g ∪ node_ids "Category" cats ∪ node_ids "Product" prods
                 ∪ node_ids "Customer" custs ∪ node_ids "Order" orders.
Proof.
  rewrite load_graph_plan. unfold load_plan. intros Hload.
  destruct (records tables "categories") as [cats|]; [|done].
  destruct (records tables "products") as [prods|]; [|done].
  destruct (records tables "customers") as [custs|]; [|done].
  destruct (records tables "orders") as [orders|]; [|done].
  destruct (records tables "order_items") as [items|]; [|done].
  destruct (records tables "events") as [events|]; [|done].
  simpl in Hload. exists cats, prods, custs, orders. repeat split.
  rewrite exec_trace in Hload.
  destruct (trace _ (nodes g)) as [ws|] eqn:Htrace; simplify_eq/=.
  apply trace_created_eq in Htrace as [Hcreated Hfail].
  rewrite nodes_apply_writes, Hcreated, !upserts_app.
  rewrite !elem_of_app in Hfail.
  rewrite upserts_categories, upserts_products, upserts_customers,
    upserts_orders by tauto.
  rewrite (upserts_in_nil (flat_map order_item_row items))
    by (apply Forall_flat_map_rows; intros row; apply order_item_row_labels).
  rewrite (upserts_in_nil (events_plan events)) by apply events_plan_labels.
  set_solver.
Qed.

Lemma load_graph_nodes_witness :
  exists g' cats,
    @load_graph sample_cypher sample_tables empty_graph = Some g' /\
    records sample_tables "categories" = Some cats /\
    node_ids "Category" cats ⊆ nodes g'.
Proof.
  assert (Hsome : is_Some (@load_graph sample_cypher sample_tables empty_graph))
    by (apply (bool_decide_unpack _); vm_compute; exact I).
  destruct Hsome as [g' Hload].
  destruct (load_graph_nodes sample_cypher sample_tables empty_graph g' Hload)
    as (cats & prods & custs & orders & Hc & _ & _ & _ & Hnodes).
  exists g', cats. split; [exact Hload|]. split; [exact Hc|].
  rewrite Hnodes. intros n Hn.
  do 3 apply elem_of_union_l. by apply elem_of_union_r.
Defined.

(** ** Graph loader: no dangling relationship *)

Lemma rels_node_props n sets : forall g,
  rels (apply_writes (map (fun pv => WNodeProp n pv.1 pv.2) sets) g) = rels g.
Proof.
  induction sets as [|pv sets IH]; intros g; [done|].
  rewrite map_cons.
  change (apply_writes (?w :: ?ws) g) with (apply_writes ws (apply_write g w)).
  by rewrite IH.
Qed.

Lemma rels_rel_props r sets : forall g,
  rels (apply_writes (map (fun pv => WRelProp r pv.1 pv.2) sets) g) = rels g.
Proof.
  induction sets as [|pv sets IH]; intros g; [done|].
  rewrite map_cons.
  change (apply_writes (?w :: ?ws) g) with (apply_writes ws (apply_write g w)).
  by rewrite IH.
Qed.

Lemma rels_upsert_writes n sets g :
  rels (apply_writes (upsert_writes n sets) g) = rels g.
Proof.
  unfold upsert_writes.
  change (apply_writes (?w :: ?ws) g) with (apply_writes ws (apply_write g w)).
  by rewrite rels_node_props.
Qed.

Lemma rels_link_writes r sets g :
  rels (apply_writes (link_writes r sets) g) = {[ r ]} ∪ rels g.
Proof.
  unfold link_writes.
  change (apply_writes (?w :: ?ws) g) with (apply_writes ws (apply_write g w)).
  by rewrite rels_rel_props.
Qed.

Lemma forallb_matched_elem (N : gset node_key) (needs : list node_key)
    (n : node_key) :
  forallb (matched N) needs = true -> n ∈ needs -> n ∈ N.
Proof.
  rewrite forallb_forall. intros Hall Hn.
  apply list_elem_of_In, Hall in Hn. unfold matched in Hn.
  apply andb_true_iff in Hn as [_ Hn]. by apply bool_decide_eq_true in Hn.
Qed.

Lemma links_ok_mono (l : list stmt) : forall U U',
  U ⊆ U' -> links_ok U l -> links_ok U' l.
Proof.
  induction l as [|s l IH]; intros U U' Hsub; [done|].
  destruct s as [|n sets|needs r sets]; simpl.
  - by apply IH.
  - apply IH. set_solver.
  - intros (Hs & Ht & Hl). repeat split; [set_solver|set_solver|by eapply IH].
Qed.

Lemma links_ok_app (l1 l2 : list stmt) : forall U,
  links_ok U l1 -> links_ok U l2 -> links_ok U (l1 ++ l2).
Proof.
  induction l1 as [|s l1 IH]; intros U H1 H2; [done|].
  destruct s as [|n sets|needs r sets]; simpl in *.
  - by apply IH.
  - apply IH; [done|]. eapply links_ok_mono; [|done]. set_solver.
  - destruct H1 as (Hs & Ht & Hl). repeat split; [done|done|by apply IH].
Qed.

Lemma links_ok_rows (q : gmap string value -> list stmt)
    (rows : list (gmap string value)) :
  (forall r, links_ok ∅ (q r)) -> links_ok ∅ (flat_map q rows).
Proof.
  intros Hq. induction rows as [|r rows IH]; [done|].
  simpl. by apply links_ok_app.
Qed.

Lemma exec_stmts_well_linked (l : list stmt) : forall U g g',
  links_ok U l -> U ⊆ nodes g -> well_linked g ->
  exec_stmts l g = Some g' -> well_linked g'.
Proof.
  induction l as [|s l IH]; intros U g g' Hok HU Hwl Hrun.
  - by simplify_eq/=.
  - destruct s as [|n sets|needs r sets]; cbn [exec_stmts exec_stmt] in Hrun;
      [done| |].
    + apply (IH (U ∪ {[ n ]}) _ _ Hok) in Hrun; [done| |].
      * rewrite nodes_upsert_writes. set_solver.
      * intros r0. rewrite rels_upsert_writes, nodes_upsert_writes.
        intros Hr0. apply Hwl in Hr0. set_solver.
    + destruct Hok as (Hs & Ht & Hok).
      destruct (forallb (matched (nodes g)) needs) eqn:Hm.
      * destruct sets as [sets|]; [|done].
        apply (IH U _ _ Hok) in Hrun; [done| |].
        -- by rewrite nodes_link_writes.
        -- intros r0. rewrite rels_link_writes, nodes_link_writes.
           rewrite elem_of_union, elem_of_singleton. intros [->|Hr0].
           ++ split.
              ** destruct Hs as [Hs|Hs];
                   [by eapply forallb_matched_elem | by apply HU].
              ** destruct Ht as [Ht|Ht];
                   [by eapply forallb_matched_elem | by apply HU].
           ++ by apply Hwl.
      * by apply (IH U _ _ Hok) in Hrun.
Qed.

Section LoaderLinks.
Context `{Cypher}.

Ltac row_links :=
  simpl; repeat split; first [ by left; set_solver | by right; set_solver | done ].

Lemma category_row_links r : links_ok ∅ (category_row r).
Proof. unfold category_row. destruct (row_get r "id"); done. Qed.

Lemma product_row_links r : links_ok ∅ (product_row r).
Proof.
  unfold product_row. destruct (row_get r "id"); [done|..];
    (simpl; split; [right; set_solver | split; [left; set_solver | done]]).
Qed.

Lemma customer_row_links r : links_ok ∅ (customer_row r).
Proof.
  unfold customer_row.
  destruct (row_get r "id"), (guarded cy_date (row_get r "join_date")); done.
Qed.

Lemma order_row_links r : links_ok ∅ (order_row r).
Proof.
  unfold order_row.
  destruct (row_get r "id"), (guarded cy_datetime (row_get r "ts"));
    try done;
    (simpl; split; [left; set_solver | split; [right; set_solver | done]]).
Qed.

Lemma order_item_row_links r : links_ok ∅ (order_item_row r).
Proof.
  unfold order_item_row. simpl.
  split; [left; set_solver | split; [left; set_solver | done]].
Qed.

Lemma event_row_links rel_type r : links_ok ∅ (event_row rel_type r).
Proof.
  unfold event_row. simpl.
  split; [left; set_solver | split; [left; set_solver | done]].
Qed.

Lemma load_plan_links (tables : gmap string dataframe) (l : list stmt) :
  load_plan tables = Some l -> links_ok ∅ l.
Proof.
  unfold load_plan. intros Hplan.
  destruct (records tables "categories") as [cats|]; [|done].
  destruct (records tables "products") as [prods|]; [|done].
  destruct (records tables "customers") as [custs|]; [|done].
  destruct (records tables "orders") as [orders|]; [|done].
  destruct (records tables "order_items") as [items|]; [|done].
  destruct (records tables "events") as [events|]; [|done].
  simpl in Hplan. simplify_eq. unfold events_plan.
  repeat apply links_ok_app; apply links_ok_rows; intros r.
  - apply category_row_links.
  - apply product_row_links.
  - apply customer_row_links.
  - apply order_row_links.
  - apply order_item_row_links.
  - apply event_row_links.
  - apply event_row_links.
  - apply event_row_links.
Qed.

End LoaderLinks.

(** X15.  A load keeps the graph free of dangling relationships: when every
    stored relationship joins two stored nodes before the load, so it is
    after it. *)
Theorem load_graph_keeps_links (cy : Cypher) (tables : gmap string dataframe)
    (g g' : graph) :
  well_linked g -> load_graph tables g = Some g' -> well_linked g'.
Proof.
  rewrite load_graph_plan. intros Hwl Hload.
  destruct (load_plan tables) as [l|] eqn:Hplan; simplify_eq/=.
  apply (exec_stmts_well_linked l ∅ g g'); try done.
  by eapply load_plan_links.
Qed.

Lemma load_graph_keeps_links_witness :
  well_linked empty_graph /\
  exists g',
    @load_graph sample_cypher sample_tables empty_graph = Some g' /\
    well_linked g'.
Proof.
  assert (Hempty : well_linked empty_graph).
  { intros r Hr. simpl in Hr. by apply not_elem_of_empty in Hr. }
  split; [exact Hempty|].
  assert (Hsome : is_Some (@load_graph sample_cypher sample_tables empty_graph))
    by (apply (bool_decide_unpack _); vm_compute; exact I).
  destruct Hsome as [g' Hload]. exists g'. split; [exact Hload|].
  exact (load_graph_keeps_links sample_cypher sample_tables empty_graph g'
           Hempty Hload).
Defined.

(** ** Graph loader: rerun after an interrupted load *)

Lemma trace_app (l1 l2 : list stmt) : forall N,
  trace (l1 ++ l2) N =
    match trace l1 N with
    | Some ws1 =>
        match trace l2 (N ∪ created ws1) with
        | Some ws2 => Some (ws1 ++ ws2)
        | None => None
        end
    | None => None
    end.
Proof.
  induction l1 as [|s l1 IH]; intros N.
  - simpl. replace (N ∪ created []) with N by (unfold created; set_solver).
    by destruct (trace l2 N).
  - destruct s as [|n sets|needs r sets]; cbn [app trace]; [done| |].
    + rewrite IH. destruct (trace l1 _) as [ws1|]; [|done].
      rewrite created_app, created_upsert_writes.
      replace (N ∪ ({[n]} ∪ created ws1)) with (N ∪ {[n]} ∪ created ws1)
        by set_solver.
      destruct (trace l2 _); [|done]. by rewrite app_assoc.
    + destruct (forallb _ needs); [|apply IH].
      destruct sets as [sets|]; [|done].
      rewrite IH. destruct (trace l1 N) as [ws1|]; [|done].
      rewrite created_app, created_link_writes, union_empty_l_L.
      destruct (trace l2 _); [|done]. by rewrite app_assoc.
Qed.

Lemma exec_stmts_resume (l1 l2 : list stmt) (g g1 : graph) :
  ordered (l1 ++ l2) ->
  exec_stmts l1 g = Some g1 ->
  exec_stmts (l1 ++ l2) g1 = exec_stmts (l1 ++ l2) g.
Proof.
  intros Hord Hrun. rewrite exec_trace in Hrun.
  destruct (trace l1 (nodes g)) as [ws1|] eqn:H1; simplify_eq/=.
  rewrite !exec_trace, nodes_apply_writes.
  rewrite trace_stable; [|done|].
  2:{ apply trace_created in H1. rewrite upserts_app. set_solver. }
  rewrite trace_app, H1.
  destruct (trace l2 _) as [ws2|]; [simpl|done].
  by rewrite !apply_writes_app, apply_writes_replay.
Qed.

(** X16.  A load that stopped after some of its writes can simply be run
    again: starting from the graph the interrupted load left, a full load
    ends in the graph (or the error) of a load that was never
    interrupted. *)
Theorem load_graph_resume (cy : Cypher) (tables : gmap string dataframe)
    (done_part rest : list stmt) (g g1 : graph) :
  load_plan tables = Some (done_part ++ rest) ->
  exec_stmts done_part g = Some g1 ->
  load_graph tables g1 = load_graph tables g.
Proof.
  intros Hplan Hrun. rewrite !load_graph_plan, Hplan. simpl.
  apply exec_stmts_resume; [|done]. by eapply load_plan_ordered.
Qed.

Lemma load_graph_resume_witness :
  exists g1,
    exec_stmts
      (flat_map category_row
         (default [] (records sample_tables "categories"))
       ++ flat_map (@product_row sample_cypher)
            (default [] (records sample_tables "products")))
      empty_graph = Some g1 /\
    @load_graph sample_cypher sample_tables g1
      = @load_graph sample_cypher sample_tables empty_graph.
Proof.
  assert (Hsome : is_Some
    (exec_stmts
       (flat_map category_row
          (default [] (records sample_tables "categories"))
        ++ flat_map (@product_row sample_cypher)
             (default [] (records sample_tables "products")))
       empty_graph))
    by (apply (bool_decide_unpack _); vm_compute; exact I).
  destruct Hsome as [g1 Hrun]. exists g1. split; [exact Hrun|].
  refine (load_graph_resume sample_cypher sample_tables _
            (flat_map (@customer_row sample_cypher)
               (default [] (records sample_tables "customers"))
             ++ flat_map (@order_row sample_cypher)
                  (default [] (records sample_tables "orders"))
             ++ flat_map (@order_item_row sample_cypher)
                  (default [] (records sample_tables "order_items"))
             ++ @events_plan sample_cypher
                  (default [] (records sample_tables "events")))
            empty_graph g1 _ Hrun).
  rewrite <- app_assoc. vm_compute. reflexivity.
Defined.

(** ** Graph loader: the last row of a key decides *)

Lemma node_props_node_writes n sets : forall g k,
  k.1 <> n ->
  node_props (apply_writes (map (fun pv => WNodeProp n pv.1 pv.2) sets) g) !! k
    = node_props g !! k.
Proof.
  induction sets as [|pv sets IH]; intros g k Hk; [done|].
  rewrite map_cons.
  change (apply_writes (?w :: ?ws) g) with (apply_writes ws (apply_write g w)).
  rewrite IH by done. simpl. unfold set_cell.
  rewrite lookup_partial_alter_ne; [done|]. intros <-. by apply Hk.
Qed.

Lemma node_props_upsert_other n sets g k :
  k.1 <> n ->
  node_props (apply_writes (upsert_writes n sets) g) !! k = node_props g !! k.
Proof.
  intros Hk. unfold upsert_writes.
  change (apply_writes (?w :: ?ws) g) with (apply_writes ws (apply_write g w)).
  by rewrite node_props_node_writes.
Qed.

Lemma node_props_rel_writes r sets : forall g,
  node_props (apply_writes (map (fun pv => WRelProp r pv.1 pv.2) sets) g)
    = node_props g.
Proof.
  induction sets as [|pv sets IH]; intros g; [done|].
  rewrite map_cons.
  change (apply_writes (?w :: ?ws) g) with (apply_writes ws (apply_write g w)).
  by rewrite IH.
Qed.

Lemma rel_props_node_writes n sets : forall g,
  rel_props (apply_writes (map (fun pv => WNodeProp n pv.1 pv.2) sets) g)
    = rel_props g.
Proof.
  induction sets as [|pv sets IH]; intros g; [done|].
  rewrite map_cons.
  change (apply_writes (?w :: ?ws) g) with (apply_writes ws (apply_write g w)).
  by rewrite IH.
Qed.

Lemma rel_props_rel_writes r sets : forall g k,
  k.1 <> r ->
  rel_props (apply_writes (map (fun pv => WRelProp r pv.1 pv.2) sets) g) !! k
    = rel_props g !! k.
Proof.
  induction sets as [|pv sets IH]; intros g k Hk; [done|].
  rewrite map_cons.
  change (apply_writes (?w :: ?ws) g) with (apply_writes ws (apply_write g w)).
  rewrite IH by done. simpl. unfold set_cell.
  rewrite lookup_partial_alter_ne; [done|]. intros <-. by apply Hk.
Qed.

(** Statements that merge other nodes and other relationships leave the
    properties of a node and of a relationship as they were. *)
Lemma exec_stmts_props_untouched (l : list stmt) : forall g g',
  exec_stmts l g = Some g' ->
  (forall n p, n ∉ upserts l -> node_props g' !! (n, p) = node_props g !! (n, p)) /\
  (forall r p, Forall (fun s => stmt_rel s <> Some r) l ->
     rel_props g' !! (r, p) = rel_props g !! (r, p)).
Proof.
  induction l as [|s l IH]; intros g g' Hrun; [by simplify_eq/=|].
  destruct s as [|n0 sets|needs r0 sets]; cbn [exec_stmts exec_stmt] in Hrun;
    [done| |].
  - apply IH in Hrun as [Hnode Hrel]. split.
    + intros n p Hn. rewrite upserts_cons in Hn. simpl in Hn.
      rewrite Hnode by set_solver.
      apply node_props_upsert_other. simpl. set_solver.
    + intros r p Hall. apply Forall_cons in Hall as [_ Hall].
      rewrite Hrel by done. unfold upsert_writes.
      change (apply_writes (?w :: ?ws) g) with (apply_writes ws (apply_write g w)).
      by rewrite rel_props_node_writes.
  - destruct (forallb (matched (nodes g)) needs).
    + destruct sets as [sets|]; [|done].
      apply IH in Hrun as [Hnode Hrel]. split.
      * intros n p Hn. rewrite upserts_cons in Hn.
        rewrite Hnode by set_solver. unfold link_writes.
        change (apply_writes (?w :: ?ws) g) with (apply_writes ws (apply_write g w)).
        by rewrite node_props_rel_writes.
      * intros r p Hall. apply Forall_cons in Hall as [Hr Hall].
        rewrite Hrel by done. unfold link_writes.
        change (apply_writes (?w :: ?ws) g) with (apply_writes ws (apply_write g w)).
        rewrite rel_props_rel_writes; [done|]. simpl in *. congruence.
    + apply IH in Hrun as [Hnode Hrel]. split.
      * intros n p Hn. rewrite upserts_cons in Hn. apply Hnode. set_solver.
      * intros r p Hall. apply Forall_cons in Hall as [_ Hall]. by apply Hrel.
Qed.

Lemma category_rows_upsert_ids (cats : list (gmap string value))
    (n : node_key) :
  n ∈ upserts (flat_map category_row cats) ->
  exists c, c ∈ cats /\ n = ("Category", row_get c "id").
Proof.
  induction cats as [|c cats IH]; simpl.
  - unfold upserts. simpl. set_solver.
  - rewrite upserts_app, elem_of_union. intros [Hn|Hn].
    + exists c. split; [set_solver|].
      unfold category_row in Hn.
      destruct (row_get c "id"); unfold upserts in Hn; simpl in Hn; set_solver.
    + destruct (IH Hn) as (c' & Hc' & ->). exists c'. set_solver.
Qed.

(** X17.  When several category rows carry the same [id], the node ends
    with the [name] of the last of them. *)
Theorem category_last_row_wins (pre post : list (gmap string value))
    (row : gmap string value) (g g' : graph) :
  load_step category_row (pre ++ row :: post) g = Some g' ->
  (forall r, r ∈ post -> row_get r "id" <> row_get row "id") ->
  node_props g' !! (("Category", row_get row "id"), "name")
    = cell (row_get row "name").
Proof.
  rewrite load_step_rows, flat_map_app. cbn [flat_map].
  rewrite exec_stmts_app. intros Hrun Hpost.
  destruct (exec_stmts (flat_map category_row pre) g) as [g1|]; [|done].
  simpl in Hrun. rewrite exec_stmts_app in Hrun.
  destruct (exec_stmts (category_row row) g1) as [g2|] eqn:Hrow; [|done].
  simpl in Hrun.
  apply exec_stmts_props_untouched in Hrun as [Hnode _].
  rewrite Hnode.
  - unfold category_row in Hrow.
    destruct (row_get row "id"); simplify_eq/=;
      unfold set_cell; by rewrite lookup_partial_alter_eq.
  - intros Hin. apply category_rows_upsert_ids in Hin as (c & Hc & Heq).
    apply (Hpost c Hc). congruence.
Qed.

Lemma category_last_row_wins_witness :
  exists g',
    load_step category_row
      [ {[ "id" := VInt 1; "name" := VStr "Books" ]};
        {[ "id" := VInt 1; "name" := VStr "Livres" ]} ] empty_graph = Some g' /\
    node_props g' !! (("Category",
                       row_get {[ "id" := VInt 1; "name" := VStr "Livres" ]} "id"),
                      "name")
      = cell (row_get {[ "id" := VInt 1; "name" := VStr "Livres" ]} "name").
Proof.
  assert (Hsome : is_Some
    (load_step category_row
       [ {[ "id" := VInt 1; "name" := VStr "Books" ]};
         {[ "id" := VInt 1; "name" := VStr "Livres" ]} ] empty_graph))
    by (apply (bool_decide_unpack _); vm_compute; exact I).
  destruct Hsome as [g' Hrun]. exists g'. split; [exact Hrun|].
  apply (category_last_row_wins
           [ {[ "id" := VInt 1; "name" := VStr "Books" ]} ] []
           {[ "id" := VInt 1; "name" := VStr "Livres" ]} empty_graph g' Hrun).
  intros r Hr. by apply elem_of_nil in Hr.
Defined.

Lemma Forall_flat_map_elem {A B} (P : B -> Prop) (f : A -> list B) (l : list A) :
  (forall x, x ∈ l -> Forall P (f x)) -> Forall P (flat_map f l).
Proof.
  induction l as [|x l IH]; intros Hf; simpl; [done|].
  apply Forall_app. split; [apply Hf; set_solver|].
  apply IH. intros y Hy. apply Hf. set_solver.
Qed.

(** X18.  When several events of one type join the same customer and
    product, the relationship ends with the [ts] of the last of them. *)
Theorem event_last_row_wins (cy : Cypher) (rel_type : string)
    (pre post : list (gmap string value)) (e : gmap string value)
    (t : value) (g g' : graph) :
  load_step (event_row rel_type) (pre ++ e :: post) g = Some g' ->
  matched (nodes g) ("Customer", row_get e "customer_id") = true ->
  matched (nodes g) ("Product", row_get e "product_id") = true ->
  guarded cy_datetime (row_get e "ts") = Some t ->
  (forall r, r ∈ post ->
     (row_get r "customer_id", row_get r "product_id")
     <> (row_get e "customer_id", row_get e "product_id")) ->
  rel_props g' !! ((rel_type, ("Customer", row_get e "customer_id"),
                              ("Product", row_get e "product_id")), "ts")
    = cell t.
Proof.
  rewrite load_step_rows, flat_map_app. cbn [flat_map].
  rewrite exec_stmts_app. intros Hrun Hc Hp Ht Hpost.
  destruct (exec_stmts (flat_map (event_row rel_type) pre) g) as [g1|] eqn:Hpre;
    [|done].
  change (exec_stmts (event_row rel_type e ++ flat_map (event_row rel_type) post)
            g1 = Some g') in Hrun.
  rewrite exec_stmts_app in Hrun.
  assert (Hnodes : nodes g1 = nodes g).
  { apply exec_stmts_nodes in Hpre as [Hsub Hsup].
    rewrite (upserts_in_nil (flat_map (event_row rel_type) pre)) in Hsup
      by (apply Forall_flat_map_rows; intros r; apply event_row_labels).
    set_solver. }
  rewrite (event_row_matched rel_type e t g1) in Hrun
    by (rewrite ?Hnodes; done).
  simpl in Hrun.
  apply exec_stmts_props_untouched in Hrun as [_ Hrel].
  rewrite Hrel.
  - simpl. unfold set_cell. by rewrite lookup_partial_alter_eq.
  - apply Forall_flat_map_elem. intros r Hr.
    unfold event_row. repeat constructor. simpl. intros Heq.
    apply (Hpost r Hr). congruence.
Qed.

Lemma event_last_row_wins_witness :
  exists g',
    load_step (@event_row sample_cypher "VIEWED")
      [purchase_event; view_event] shop_graph = Some g' /\
    rel_props g' !! (("VIEWED", ("Customer", row_get view_event "customer_id"),
                                ("Product", row_get view_event "product_id")),
                     "ts")
      = cell (VDateTime "2023-03-06T10:00:00Z").
Proof.
  assert (Hsome : is_Some
    (load_step (@event_row sample_cypher "VIEWED")
       [purchase_event; view_event] shop_graph))
    by (apply (bool_decide_unpack _); vm_compute; exact I).
  destruct Hsome as [g' Hrun]. exists g'. split; [exact Hrun|].
  apply (event_last_row_wins sample_cypher "VIEWED" [purchase_event] []
           view_event _ shop_graph g' Hrun).
  - by vm_compute.
  - by vm_compute.
  - by vm_compute.
  - intros r Hr. by apply elem_of_nil in Hr.
Defined.

(** X19.  An event whose customer or product is not stored is passed over:
    the graph stays as it is and nothing is raised, whatever its [ts] is,
    since the timestamp is only read once both nodes matched. *)
Theorem event_for_missing_node_dropped (cy : Cypher) (e : gmap string value)
    (g : graph) :
  matched (nodes g) ("Customer", row_get e "customer_id") = false \/
  matched (nodes g) ("Product", row_get e "product_id") = false ->
  load_events [e] g = Some g.
Proof.
  intros Hmiss. rewrite load_events_plan. unfold events_plan.
  assert (Hrow : forall rel_type g0, nodes g0 = nodes g ->
            exec_stmts (event_row rel_type e) g0 = Some g0).
  { intros rel_type g0 Hg0. unfold event_row.
    cbn [exec_stmts exec_stmt forallb]. rewrite Hg0.
    destruct Hmiss as [-> | ->]; [done|]. by rewrite andb_false_r. }
  assert (Hstep : forall rel_type t,
            exec_stmts (flat_map (event_row rel_type) (by_type [e] t)) g = Some g).
  { intros rel_type t. rewrite by_type_single.
    case_decide; cbn [flat_map]; [|done].
    rewrite app_nil_r. by apply Hrow. }
  rewrite exec_stmts_app, Hstep. cbn [mbind option_bind].
  rewrite exec_stmts_app, Hstep. cbn [mbind option_bind].
  apply Hstep.
Qed.

Lemma event_for_missing_node_dropped_witness :
  @guarded (@cy_datetime sample_cypher) (row_get stray_event "ts") = None /\
  @load_events sample_cypher [stray_event] shop_graph = Some shop_graph.
Proof.
  split; [by vm_compute|].
  apply (event_for_missing_node_dropped sample_cypher stray_event shop_graph).
  left. by vm_compute.
Defined.

(** X20.  An order item whose order or product is not stored is passed
    over: the graph stays as it is and nothing is raised. *)
Theorem order_item_for_missing_node_dropped (cy : Cypher)
    (row : gmap string value) (g : graph) :
  matched (nodes g) ("Order", row_get row "order_id") = false \/
  matched (nodes g) ("Product", row_get row "product_id") = false ->
  load_step order_item_row [row] g = Some g.
Proof.
  intros Hmiss. rewrite load_step_rows. unfold order_item_row.
  cbn [flat_map app exec_stmts exec_stmt forallb].
  destruct Hmiss as [-> | ->]; [done|]. by rewrite andb_false_r.
Qed.

Lemma order_item_for_missing_node_dropped_witness :
  load_step (@order_item_row sample_cypher)
    [ {[ "order_id" := VInt 500; "product_id" := VInt 10;
         "quantity" := VInt 2 ]} ] shop_graph = Some shop_graph.
Proof.
  apply (order_item_for_missing_node_dropped sample_cypher).
  left. by vm_compute.
Defined.

(** X21.  An order with a non-null [id] whose customer is not stored still
    gets its [Order] node with its [ts], and no [PLACED] relationship;
    nothing is raised. *)
Theorem order_without_customer (cy : Cypher) (row : gmap string value)
    (t : value) (g : graph) :
  row_get row "id" <> VNull ->
  guarded cy_datetime (row_get row "ts") = Some t ->
  matched (nodes g) ("Customer", row_get row "customer_id") = false ->
  load_step order_row [row] g =
    Some (Graph (nodes g ∪ {[ ("Order", row_get row "id") ]})
            (set_cell (("Order", row_get row "id"), "ts") t (node_props g))
            (rels g) (rel_props g)).
Proof.
  intros Hid Ht Hcust. rewrite load_step_rows. cbn [flat_map].
  rewrite app_nil_r. unfold order_row. rewrite Ht.
  assert (Hm : forall id, matched ({[ ("Order", id) ]} ∪ nodes g)
                 ("Customer", row_get row "customer_id") = false).
  { intros id. etrans; [|exact Hcust]. apply matched_ext. set_solver. }
  destruct (row_get row "id") eqn:Hrow; [done|..];
    cbn [exec_stmts exec_stmt upsert_writes apply_writes map foldl
         apply_write nodes node_props rels rel_props fst snd forallb];
    rewrite Hm; do 2 f_equal; set_solver.
Qed.

Lemma order_without_customer_witness :
  exists g',
    load_step (@order_row sample_cypher) [order_of_stranger] shop_graph
      = Some g' /\
    rels g' = ∅ /\
    ("Order", row_get order_of_stranger "id") ∈ nodes g'.
Proof.
  eexists. split.
  - apply (order_without_customer sample_cypher order_of_stranger
             (VDateTime "2023-03-05T14:30:00Z") shop_graph).
    + by vm_compute.
    + by vm_compute.
    + by vm_compute.
  - simpl. split; [done|]. apply elem_of_union_r. by apply elem_of_singleton.
Defined.

(** X22.  The loader needs all six tables: when one of them is missing from
    the mapping, the load raises. *)
Theorem load_graph_missing_table (cy : Cypher) (tables : gmap string dataframe)
    (name : string) (g : graph) :
  name ∈ RELATIONS -> tables !! name = None -> load_graph tables g = None.
Proof.
  intros Hname Hmiss. rewrite load_graph_plan. unfold load_plan.
  assert (Hrec : records tables name = None) by (unfold records; by rewrite Hmiss).
  unfold RELATIONS in Hname.
  repeat (apply elem_of_cons in Hname as [->|Hname]);
    [..|by apply elem_of_nil in Hname];
    rewrite Hrec;
    repeat match goal with
           | |- context [records tables ?n] => destruct (records tables n)
           end; done.
Qed.

Lemma load_graph_missing_table_witness :
  @load_graph sample_cypher (delete "events" sample_tables) empty_graph = None.
Proof.
  apply (load_graph_missing_table sample_cypher _ "events").
  - unfold RELATIONS. set_solver.
  - apply lookup_delete_eq.
Defined.

(** ** Pipeline *)

Lemma frame_refs_fst (tables : gmap string dataframe) :
  (imap (fun i (kv : string * dataframe) => (kv.1, i)) (map_to_list tables)).*1
    = (map_to_list tables).*1.
Proof. rewrite fmap_imap. apply imap_const. Qed.

(** Every frame of the tables is stored, under the reference its name is
    bound to. *)
Lemma frame_refs_Some (tables : gmap string dataframe) (k : string)
    (df : dataframe) :
  tables !! k = Some df ->
  exists r, frame_refs tables !! k = Some r /\
            store_frames tables !! r = Some df.
Proof.
  intros Hk. apply elem_of_map_to_list in Hk.
  apply list_elem_of_lookup in Hk as [i Hi]. exists i. split.
  - unfold frame_refs. apply elem_of_list_to_map_1.
    + rewrite frame_refs_fst. apply NoDup_fst_map_to_list.
    + apply elem_of_lookup_imap. by exists i, (k, df).
  - unfold store_frames. rewrite lookup_map_seq_0, list_lookup_fmap, Hi. done.
Qed.

Lemma frame_refs_None (tables : gmap string dataframe) (k : string) :
  tables !! k = None -> frame_refs tables !! k = None.
Proof.
  intros Hk. unfold frame_refs. apply not_elem_of_list_to_map_1.
  rewrite frame_refs_fst. intros Hin.
  apply list_elem_of_fmap in Hin as [[k' df] [-> Hin]].
  apply elem_of_map_to_list in Hin. simpl in *. congruence.
Qed.

Lemma frame_refs_stored (tables : gmap string dataframe) (k : string) (r : nat) :
  frame_refs tables !! k = Some r -> is_Some (store_frames tables !! r).
Proof.
  intros Hr. destruct (tables !! k) as [df|] eqn:Hk.
  - destruct (frame_refs_Some tables k df Hk) as (r' & Hr' & Hdf).
    simplify_eq. by eexists.
  - rewrite (frame_refs_None tables k Hk) in Hr. done.
Qed.

Section PipelineFrames.
Context `{Pandas}.

(** The frame [normalize_tables] returns under a name is the normalised
    copy of the frame that was under that name. *)
Lemma normalize_tables_lookup (tables : gmap string nat)
    (h : gmap nat dataframe) :
  (forall k r, tables !! k = Some r -> is_Some (h !! r)) ->
  dom (normalize_tables tables h).1 = dom tables /\
  (forall k r df, tables !! k = Some r -> h !! r = Some df ->
     exists r', (normalize_tables tables h).1 !! k = Some r' /\
                (normalize_tables tables h).2 !! r'
                  = Some (normalize_frame k df)).
Proof.
  intros Hwf. unfold normalize_tables.
  pose proof (copy_tables_copied tables h Hwf) as Hcopy.
  destruct (copy_tables tables h) as [t h0].
  destruct Hcopy as (Hkeep & Hdom & Hnew & Hinj). simpl in *.
  split; [done|].
  intros k r df Hk Hr.
  assert (is_Some (t !! k)) as [r' Hr'].
  { apply elem_of_dom. rewrite Hdom. by apply elem_of_dom. }
  destruct (Hnew _ _ Hr') as (Hfresh & r0 & df0 & Hk0 & Hr0 & Hcopy).
  simplify_eq. exists r'. split; [done|].
  rewrite !normalize_in_place_lookup, Hcopy. unfold normalize_frame. simpl.
  repeat (case_decide; simpl; subst); try done;
    match goal with
    | H1 : t !! ?a = Some r', H2 : t !! ?b = Some r' |- _ =>
        by pose proof (Hinj _ _ _ H1 H2)
    | H1 : t !! ?a = Some r', H2 : t !! ?a <> Some r' |- _ => done
    end.
Qed.

(** Read back through the dictionary it returns, [normalize_tables] is the
    normalisation of each frame under its name. *)
Lemma load_frames_normalize_tables (tables : gmap string dataframe) :
  load_frames (normalize_tables (frame_refs tables) (store_frames tables)).1
              (normalize_tables (frame_refs tables) (store_frames tables)).2
    = normalized tables.
Proof.
  destruct (normalize_tables_lookup (frame_refs tables) (store_frames tables)
              (frame_refs_stored tables)) as [Hdom Hget].
  apply map_eq. intros k. unfold load_frames, normalized.
  rewrite lookup_omap, map_lookup_imap.
  destruct (tables !! k) as [df|] eqn:Hk; simpl.
  - destruct (frame_refs_Some tables k df Hk) as (r & Hr & Hdf).
    destruct (Hget k r df Hr Hdf) as (r' & -> & Hr'). done.
  - assert (Hnone : (normalize_tables (frame_refs tables)
                       (store_frames tables)).1 !! k = None).
    { apply not_elem_of_dom. rewrite Hdom. apply not_elem_of_dom.
      by apply frame_refs_None. }
    by rewrite Hnone.
Qed.

End PipelineFrames.

Lemma wait_loop_shift {E} (hz : Z) (probe : nat -> probe_run E)
    (timeout start d : Z) (fuel : nat) : forall k now,
  wait_loop hz probe timeout (start + d) fuel k (now + d)
    = shift_result d <$> wait_loop hz probe timeout start fuel k now.
Proof.
  induction fuel as [|fuel IH]; intros k now; [done|].
  cbn [wait_loop]. destruct (pr_error (probe k)) as [e|].
  - replace (now + d + Z.of_nat (pr_cost (probe k)) - (start + d))
      with (now + Z.of_nat (pr_cost (probe k)) - start) by lia.
    destruct (_ >? _).
    + simpl. do 2 f_equal. lia.
    + rewrite <- IH. f_equal. lia.
  - simpl. do 2 f_equal. lia.
Qed.

(** A gate that returned from one start time returns from any other, at the
    same probe run. *)
Lemma await_ready_restart {E} (hz : Z) (probe : nat -> probe_run E)
    (timeout : Z) (fuel : nat) (start start' : Z) (k : nat) (t : Z) :
  await_ready hz probe timeout fuel start = Some (Ready k t) ->
  await_ready hz probe timeout fuel start'
    = Some (Ready k (t + (start' - start))).
Proof.
  unfold await_ready. intros Hrun.
  replace start' with (start + (start' - start)) at 1 2 by lia.
  by rewrite wait_loop_shift, Hrun.
Qed.


(** The number of engines made so far has no bearing on what is read. *)
Lemma read_relations_engines (src : source_store) (names : list string) :
  forall tables st n,
  read_relations src names tables
      {| engines := n; open_connections := open_connections st |}
    = ({| engines := n;
          open_connections
            := open_connections (read_relations src names tables st).1 |},
       (read_relations src names tables st).2).
Proof.
  induction names as [|tbl rest IH]; intros tables st n;
    cbn [read_relations]; [done|].
  unfold read_sql_query. cbn [open_connections engines].
  destruct (open_connections st) as [|o] eqn:Hopen.
  - destruct (src_connect src tbl); [simpl; by rewrite Hopen|].
    destruct (src_query src tbl) as [df|msg]; [|done].
    apply (IH (<[tbl := df]> tables)
              {| engines := engines st; open_connections := 1 |} n).
  - destruct (src_query src tbl) as [df|msg]; [|simpl; by rewrite Hopen].
    rewrite <- Hopen. apply IH.
Qed.

(** With no connection open at the start, what [extract_postgres] returns
    or raises is the same whatever the number of engines made before. *)
Lemma extract_postgres_again (src : source_store) (st st' : engine_state) :
  open_connections st = 0%nat -> open_connections st' = 0%nat ->
  (extract_postgres src st').2 = (extract_postgres src st).2 /\
  open_connections (extract_postgres src st').1
    = open_connections (extract_postgres src st).1.
Proof.
  intros Hst Hst'. unfold extract_postgres.
  assert (Hst1 : create_engine st'
                 = {| engines := S (engines st');
                      open_connections := open_connections (create_engine st) |}).
  { unfold create_engine. simpl. by rewrite Hst, Hst'. }
  rewrite Hst1, read_relations_engines.
  destruct (read_relations src RELATIONS ∅ (create_engine st))
    as [st2 [out|e]]; done.
Qed.

(** A run seen to have completed with a given engine pool. *)
Lemma etl_done_inv {E} (r : option (etl_run E)) (n o : nat) :
  match r with
  | Some (EtlDone s _) =>
      ((engines s =? n) && (open_connections s =? o))%nat
  | _ => false
  end = true ->
  exists g1, r = Some (EtlDone {| engines := n; open_connections := o |} g1).
Proof.
  destruct r as [[| | | |[n' o'] g1]|]; try done. simpl.
  intros [->%Nat.eqb_eq ->%Nat.eqb_eq]%andb_true_iff. by exists g1.
Qed.

(** X23.  Once both gates have returned and the extractor has returned its
    tables, what [etl] loads is the extraction with the three temporal
    columns normalised and every other cell as extracted: the run ends with
    the graph that load produces, or raises where that load raises. *)
Theorem etl_loads_normalized_extraction (P : Pandas) (cy : Cypher) (E : Type)
    (hz : Z) (pg_probe neo4j_probe : nat -> probe_run E) (src : source_store)
    (fuel : nat) (start : Z) (st st' : engine_state) (g : graph)
    (tables : gmap string dataframe) (k1 k2 : nat) (t1 t2 : Z) :
  wait_for_postgres hz pg_probe WAIT_TIMEOUT_SEC fuel start
    = Some (Ready k1 t1) ->
  wait_for_neo4j hz neo4j_probe WAIT_TIMEOUT_SEC fuel t1
    = Some (Ready k2 t2) ->
  extract_postgres src st = (st', Ret tables) ->
  etl hz pg_probe neo4j_probe src fuel start st g
    = Some (match load_graph (normalized tables) g with
            | Some g' => EtlDone st' g'
            | None => LoadRaised st'
            end).
Proof.
  intros Hpg Hneo Hextract. unfold etl. rewrite Hpg, Hneo, Hextract.
  pose proof (load_frames_normalize_tables tables) as Hframes.
  destruct (normalize_tables (frame_refs tables) (store_frames tables))
    as [t h].
  simpl in Hframes. rewrite Hframes.
  by destruct (load_graph (normalized tables) g).
Qed.

Lemma etl_loads_normalized_extraction_witness :
  exists g',
    @etl iso_pandas sample_cypher string 10 third_time_lucky third_time_lucky
         raw_store 122 0 fresh_pool empty_graph
      = Some (EtlDone {| engines := 1; open_connections := 0 |} g') /\
    node_props g' !! (("Customer", VInt 100), "join_date")
      = Some (VDate "2023-03-05") /\
    node_props g' !! (("Order", VInt 500), "ts")
      = Some (VDateTime "2023-03-05T14:30:00Z").
Proof.
  pose proof (etl_loads_normalized_extraction iso_pandas sample_cypher string
                10 third_time_lucky third_time_lucky raw_store 122 0
                fresh_pool {| engines := 1; open_connections := 0 |}
                empty_graph raw_tables 2 2 29 58) as Hrun.
  assert (Hload : is_Some (@load_graph sample_cypher
                             (@normalized iso_pandas raw_tables) empty_graph))
    by (apply (bool_decide_unpack _); vm_compute; exact I).
  destruct Hload as [g' Hload]. rewrite Hload in Hrun.
  exists g'. split; [apply Hrun; vm_compute; reflexivity|].
  assert (Hobs : (fun g0 =>
                    (node_props g0 !! (("Customer", VInt 100), "join_date"),
                     node_props g0 !! (("Order", VInt 500), "ts")))
                 <$> @load_graph sample_cypher
                       (@normalized iso_pandas raw_tables) empty_graph
                 = Some (Some (VDate "2023-03-05"),
                         Some (VDateTime "2023-03-05T14:30:00Z")))
    by (vm_compute; reflexivity).
  rewrite Hload in Hobs. simpl in Hobs.
  split; congruence.
Defined.

(** X24.  A run of [etl] that completed can be run again: against the same
    source and the same probes, from any start time, the second run
    completes too and leaves the graph exactly as the first run left it,
    having made one more engine and left no connection open. *)
Theorem etl_rerun (P : Pandas) (cy : Cypher) (E : Type) (hz : Z)
    (pg_probe neo4j_probe : nat -> probe_run E) (src : source_store)
    (fuel : nat) (start start' : Z) (st st1 : engine_state) (g g1 : graph) :
  open_connections st = 0%nat ->
  etl hz pg_probe neo4j_probe src fuel start st g = Some (EtlDone st1 g1) ->
  etl hz pg_probe neo4j_probe src fuel start' st1 g1
    = Some (EtlDone {| engines := S (engines st1); open_connections := 0 |}
                    g1).
Proof.
  intros Hopen Hfirst. unfold etl in Hfirst |- *.
  unfold wait_for_postgres, wait_for_neo4j in *.
  destruct (await_ready hz pg_probe WAIT_TIMEOUT_SEC fuel start)
    as [[k1 t1|e k1 t1]|] eqn:Hpg; [|done..].
  destruct (await_ready hz neo4j_probe WAIT_TIMEOUT_SEC fuel t1)
    as [[k2 t2|e k2 t2]|] eqn:Hneo; [|done..].
  rewrite (await_ready_restart _ _ _ _ start start' _ _ Hpg).
  rewrite (await_ready_restart _ _ _ _ t1 (t1 + (start' - start)) _ _ Hneo).
  destruct (extract_postgres src st) as [st' [tables|e]] eqn:Hextract;
    [|done].
  pose proof (load_frames_normalize_tables tables) as Hframes.
  destruct (normalize_tables (frame_refs tables) (store_frames tables))
    as [t h] eqn:Hnorm.
  simpl in Hframes. rewrite Hframes in Hfirst.
  destruct (load_graph (normalized tables) g) as [g'|] eqn:Hload; [|done].
  injection Hfirst as -> ->.
  assert (Hclosed : open_connections st1 = 0%nat).
  { unfold extract_postgres in Hextract.
    destruct (read_relations src RELATIONS ∅ (create_engine st))
      as [st2 [out|e]]; by simplify_eq. }
  destruct (extract_postgres_again src st st1 Hopen Hclosed) as [Hout Hconn].
  assert (Heng : engines (extract_postgres src st1).1 = S (engines st1)).
  { unfold extract_postgres.
    pose proof (proj1 (read_relations_state src RELATIONS ∅
                         (create_engine st1))) as Heng.
    destruct (read_relations src RELATIONS ∅ (create_engine st1))
      as [st2 [out|e]]; simpl in *; by rewrite Heng. }
  rewrite Hextract in Hout, Hconn. simpl in Hout, Hconn.
  destruct (extract_postgres src st1) as [[n o] r]. simpl in *. subst.
  rewrite Hnorm, Hframes, (load_graph_replay _ _ _ Hload).
  by rewrite ?Hclosed.
Qed.

Lemma etl_rerun_witness :
  exists g1,
    @etl iso_pandas sample_cypher string 10 third_time_lucky third_time_lucky
         raw_store 122 0 fresh_pool empty_graph
      = Some (EtlDone {| engines := 1; open_connections := 0 |} g1) /\
    @etl iso_pandas sample_cypher string 10 third_time_lucky third_time_lucky
         raw_store 122 7 {| engines := 1; open_connections := 0 |} g1
      = Some (EtlDone {| engines := 2; open_connections := 0 |} g1).
Proof.
  destruct (etl_done_inv
              (@etl iso_pandas sample_cypher string 10 third_time_lucky
                 third_time_lucky raw_store 122 0 fresh_pool empty_graph)
              1 0) as [g1 Hrun]; [vm_compute; reflexivity|].
  exists g1. split; [exact Hrun|].
  exact (etl_rerun iso_pandas sample_cypher string 10 third_time_lucky
           third_time_lucky raw_store 122 0 7 fresh_pool _ empty_graph g1
           eq_refl Hrun).
Defined.


